(** * The paper-tear simulation of LetterSection.tsx

    A shallow embedding of the tear geometry (seeded noise, jagged edge,
    edge extension, clip polygons) and of the gesture state machine of
    [src/components/LetterSection.tsx], with the properties the
    specification states about them.

    Numbers.  A JavaScript [number] is an IEEE 754 binary64 value, which is
    what Rocq's primitive [float] is: every arithmetic operation, comparison
    and square root below is the kernel's binary64 operation, so a closed
    term evaluates to the very bits the source produces.  Three places use
    exact numbers instead, each said where it happens: the state of the
    noise source (an integer, [Z]), the value it yields (a ratio of two
    integers, [Q], read by its consumers as the nearest double) and the
    vertices of a clip polygon (tenths of a percent, [Z]).

    Renders.  A handler of the cover reads [isRevealed], [isDragging] and
    [tearProgress] as they were at the render that created it, and the
    refs and the functional updates as they are now.  While the cover is
    shown every event is handled after a render, so the handlers see the
    latest state.  Once the letter is revealed with nothing to show in
    the cover's place, the cover stays mounted until its exit animation
    ends, with the handlers of its last render: the state keeps the
    values they captured. *)

From Stdlib Require Import ZArith QArith Floats List Bool Lia.
Import ListNotations.

Set Warnings "-inexact-float".

(** ** JavaScript numbers *)

Module Js.

Definition number := float.

(** The double nearest to an integer (an integer literal, or a loop
    counter read as a number). *)
Definition of_Z (z : Z) : number :=
  SF2Prim (binary_normalize prec emax z 0 false).

(** The double nearest to the ratio of two integers that are themselves
    doubles: IEEE division is correctly rounded. *)
Definition of_Q (q : Q) : number :=
  (of_Z (Qnum q) / of_Z (Zpos (Qden q)))%float.

(** [a > b], [a >= b]: the source's comparisons, false on NaN. *)
Definition gtb (a b : number) : bool := (b <? a)%float.
Definition geb (a b : number) : bool := (b <=? a)%float.

(** [a !== b] on numbers. *)
Definition neqb (a b : number) : bool := negb (a =? b)%float.

Definition is_neg_zero (a : number) : bool :=
  match classify a with NZero => true | _ => false end.

(** [Math.max(a, b)] and [Math.min(a, b)]: NaN if either is NaN, and -0
    below +0. *)
Definition Math_max (a b : number) : number :=
  if is_nan a || is_nan b then nan
  else if (a <? b)%float then b
  else if (b <? a)%float then a
  else if is_neg_zero a then b else a.

Definition Math_min (a b : number) : number :=
  if is_nan a || is_nan b then nan
  else if (a <? b)%float then a
  else if (b <? a)%float then b
  else if is_neg_zero a then a else b.

Definition Math_sqrt (a : number) : number := PrimFloat.sqrt a.

(** [a ** 2].  ECMAScript leaves the rounding of [**] to the engine; it is
    taken to be the correctly rounded square, [a * a].  No result below
    depends on the last bit of a square. *)
Definition square (a : number) : number := (a * a)%float.

(** [a || b] on numbers: [a] unless it is falsy (0, -0 or NaN). *)
Definition or_else (a b : number) : number :=
  if (a =? 0)%float || is_nan a then b else a.

(** [v.toFixed(1)] read back as a count of tenths: the integer [n] with
    [n / 10] nearest to [|v|], the larger one on a tie, with the sign of
    [v].  [None] for NaN and the infinities, whose [toFixed] is not a
    numeral. *)
Definition toFixed1 (v : number) : option Z :=
  match Prim2SF v with
  | S754_zero _ => Some 0%Z
  | S754_finite s m e =>
      let n := match e with
               | Zneg k => ((20 * Zpos m + 2 ^ Zpos k) / 2 ^ (Zpos k + 1))%Z
               | _ => (10 * Zpos m * 2 ^ e)%Z
               end in
      Some (if s then (- n)%Z else n)
  | _ => None
  end.

End Js.

(** ** Deterministic noise source ([seededRandom], lines 10-16)

    [s] holds an integer.  For a seed of magnitude below [2^53 / 16807]
    (the seeds of this program are 42, 999, 12345 and [i * 137 + 7]) every
    product [s * 16807] is below [2^53], so the double arithmetic of the
    source is exact integer arithmetic: [s] is a [Z], [%] is [Z.rem] (the
    sign of the dividend, as in JavaScript).  The value returned,
    [(s - 1) / 2147483646], is kept as the exact ratio; the source's double
    is [Js.of_Q] of it. *)

Module Noise.

Definition modulus : Z := 2147483647.

(** The closure's captured variable [s]. *)
Definition rng := Z.

Definition seededRandom (seed : Z) : rng := seed.

(** One call of the returned closure: the value and the new [s]. *)
Definition next (s : rng) : Q * rng :=
  let s' := Z.rem (s * 16807 + 0) modulus in
  (Qmake (s' - 1) 2147483646, s').

(** The value of the [n]-th call (from 0) after seeding. *)
Fixpoint nth_value (s : rng) (n : nat) : Q :=
  match n with
  | O => fst (next s)
  | S k => nth_value (snd (next s)) k
  end.

Definition yields (seed : Z) (n : nat) : Q := nth_value (seededRandom seed) n.

(** The state after [n] calls. *)
Fixpoint nth_state (s : rng) (n : nat) : rng :=
  match n with
  | O => s
  | S k => nth_state (snd (next s)) k
  end.

(** The double the source returns. *)
Definition next_number (s : rng) : Js.number * rng :=
  let '(q, s') := next s in (Js.of_Q q, s').

End Noise.

(** ** Tear geometry *)

Module Geometry.

Import Js.
Local Open Scope float_scope.

(** [interface TearPoint] (lines 18-21). *)
Record TearPoint : Type := mkPoint { x : number; y : number }.

(** What reading past the end of an array of points would give; no such
    read happens, it is the default of [nth] and [last]. *)
Definition undefinedPoint : TearPoint := mkPoint nan nan.

(** *** Jagged edge generator ([generateJaggedEdge], lines 24-56) *)

(** Lines 33-38: the direction of the segment and its unit normal, with
    the divisor [len || 1]. *)
Definition segmentLength (p1 p2 : TearPoint) : number :=
  let dx := x p2 - x p1 in
  let dy := y p2 - y p1 in
  Math_sqrt (dx * dx + dy * dy).

Definition normalDivisor (p1 p2 : TearPoint) : number :=
  or_else (segmentLength p1 p2) 1.

Definition segmentNormal (p1 p2 : TearPoint) : number * number :=
  let dx := x p2 - x p1 in
  let dy := y p2 - y p1 in
  (- dy / normalDivisor p1 p2, dx / normalDivisor p1 p2).

(** The body of the loop at lines 41-52 for one [i], threading the noise
    source through its three calls. *)
Definition interiorPoint (p1 p2 : TearPoint) (jaggedness : number)
    (segments i : Z) (rng : Noise.rng) : TearPoint * Noise.rng :=
  let dx := x p2 - x p1 in
  let dy := y p2 - y p1 in
  let '(nx, ny) := segmentNormal p1 p2 in
  let t := of_Z i / of_Z segments in
  let baseX := x p1 + dx * t in
  let baseY := y p1 + dy * t in
  let '(r1, rng1) := Noise.next_number rng in
  let offset := (r1 - 0.5) * 2 * jaggedness in
  let '(r2, rng2) := Noise.next_number rng1 in
  let microX := (r2 - 0.5) * jaggedness * 0.3 in
  let '(r3, rng3) := Noise.next_number rng2 in
  let microY := (r3 - 0.5) * jaggedness * 0.3 in
  (mkPoint (baseX + nx * offset + microX) (baseY + ny * offset + microY),
   rng3).

(** [for (let i = 1; i < segments; i++)]: [count] iterations from [i]. *)
Fixpoint interiorPoints (p1 p2 : TearPoint) (jaggedness : number)
    (segments : Z) (count : nat) (i : Z) (rng : Noise.rng)
    : list TearPoint :=
  match count with
  | O => []
  | S k =>
      let '(p, rng') := interiorPoint p1 p2 jaggedness segments i rng in
      p :: interiorPoints p1 p2 jaggedness segments k (i + 1) rng'
  end.

Definition generateJaggedEdge (p1 p2 : TearPoint) (jaggedness : number)
    (segments : Z) (seed : Z) : list TearPoint :=
  let rng := Noise.seededRandom seed in
  [p1]
    ++ interiorPoints p1 p2 jaggedness segments
         (Z.to_nat (segments - 1)) 1 rng
    ++ [p2].

(** *** Edge extension resolver ([extendToEdge], lines 718-763) *)

(** [Math.max(0, Math.min(1, v))]. *)
Definition clamp01 (v : number) : number := Math_max 0 (Math_min 1 v).

(** Lines 728-745: the candidate list, in the order it is pushed. *)
Definition edgeCandidates (point : TearPoint) (dx dy : number)
    : list TearPoint :=
  (if neqb dx 0 then
     (let tLeft := - x point / dx in
      if gtb tLeft 0 then [mkPoint 0 (y point + dy * tLeft)] else [])
     ++
     (let tRight := (1 - x point) / dx in
      if gtb tRight 0 then [mkPoint 1 (y point + dy * tRight)] else [])
   else [])
  ++
  (if neqb dy 0 then
     (let tTop := - y point / dy in
      if gtb tTop 0 then [mkPoint (x point + dx * tTop) 0] else [])
     ++
     (let tBottom := (1 - y point) / dy in
      if gtb tBottom 0 then [mkPoint (x point + dx * tBottom) 1] else [])
   else []).

(** The test of line 751. *)
Definition validCandidate (c : TearPoint) : bool :=
  geb (x c) (-0.01) && (x c <=? 1.01) && geb (y c) (-0.01) && (y c <=? 1.01).

(** One turn of the loop at lines 750-761 on [(best, bestDist)]. *)
Definition pickCloser (point : TearPoint) (acc : TearPoint * number)
    (c : TearPoint) : TearPoint * number :=
  let '(best, bestDist) := acc in
  if validCandidate c then
    let d := square (x c - x point) + square (y c - y point) in
    if d <? bestDist
    then (mkPoint (clamp01 (x c)) (clamp01 (y c)), d)
    else (best, bestDist)
  else (best, bestDist).

(** Line 748: the initial [best], the top edge above the point. *)
Definition fallbackEdge (point : TearPoint) : TearPoint :=
  mkPoint (clamp01 (x point)) 0.

Definition extendToEdge (point neighbor : TearPoint) (isStart : bool)
    : TearPoint :=
  let dx := if isStart then x point - x neighbor else x point - x neighbor in
  let dy := if isStart then y point - y neighbor else y point - y neighbor in
  let candidates := edgeCandidates point dx dy in
  fst (fold_left (pickCloser point) candidates
         (fallbackEdge point, infinity)).

(** *** The jagged tear line ([jaggedTearPoints], lines 307-325) *)

(** The loop of lines 312-323 from index [i] on the rest of the source:
    the whole edge for [i = 0], [jagged.slice(1)] after. *)
Fixpoint chainSegments (tearProgress : number) (i : Z)
    (source : list TearPoint) : list TearPoint :=
  match source with
  | p :: (q :: _) as rest =>
      let jagged :=
        generateJaggedEdge p q (0.012 + tearProgress * 0.008) 4
          (i * 137 + 7) in
      (if (i =? 0)%Z then jagged else tl jagged)
        ++ chainSegments tearProgress (i + 1) rest
  | _ => []
  end.

(** Line 308: [completedTear || (tearPath.length >= 2 ? tearPath : null)]. *)
Definition tearSource (tearPath : list TearPoint)
    (completedTear : option (list TearPoint)) : option (list TearPoint) :=
  match completedTear with
  | Some c => Some c
  | None => if (2 <=? length tearPath)%nat then Some tearPath else None
  end.

Definition jaggedTearPoints (tearPath : list TearPoint)
    (completedTear : option (list TearPoint)) (tearProgress : number)
    : list TearPoint :=
  match tearSource tearPath completedTear with
  | None => []
  | Some src =>
      if (length src <? 2)%nat then [] else chainSegments tearProgress 0 src
  end.

(** *** Clip geometry builder ([topClip], [bottomClip], lines 364-392)

    A clip path is the empty string or a [polygon(...)] of percentages
    printed with [toFixed(1)].  A vertex is kept as its two printed
    percentages counted in tenths, so [(1000, 500)] is [100.0% 50.0%]; a
    polygon with a coordinate that does not print as a numeral is
    [BadPolygon]. *)

Abbreviation Vertex := (Z * Z)%type (only parsing).

Inductive ClipPath : Type :=
| NoClip
| Polygon (vs : list Vertex)
| BadPolygon.

(** [(v * 100).toFixed(1)] followed by [%]. *)
Definition percent (v : number) : option Z := toFixed1 (v * 100).

Definition printVertex (p : TearPoint) : option Vertex :=
  match percent (x p), percent (y p) with
  | Some a, Some b => Some (a, b)
  | _, _ => None
  end.

(** [points.map(...).join(", ")]. *)
Fixpoint printPath (ps : list TearPoint) : option (list Vertex) :=
  match ps with
  | [] => Some []
  | p :: rest =>
      match printVertex p, printPath rest with
      | Some v, Some vs => Some (v :: vs)
      | _, _ => None
      end
  end.

Definition polygonOf (vs : option (list Vertex)) : ClipPath :=
  match vs with Some l => Polygon l | None => BadPolygon end.

(** Lines 385-389. *)
Definition topClip (jagged : list TearPoint) : ClipPath :=
  if (length jagged <? 2)%nat then NoClip
  else
    let firstTear := nth 0 jagged undefinedPoint in
    let lastTear := nth (length jagged - 1) jagged undefinedPoint in
    polygonOf
      match percent (y lastTear), printPath (rev jagged),
            percent (y firstTear) with
      | Some ly, Some tearPathReversed, Some fy =>
          Some ([(0, 0); (1000, 0); (1000, ly)] ++ tearPathReversed
                  ++ [(0, fy)])%Z
      | _, _, _ => None
      end.

Definition bottomClip (jagged : list TearPoint) : ClipPath :=
  if (length jagged <? 2)%nat then NoClip
  else
    let firstTear := nth 0 jagged undefinedPoint in
    let lastTear := nth (length jagged - 1) jagged undefinedPoint in
    polygonOf
      match percent (y firstTear), printPath jagged,
            percent (y lastTear) with
      | Some fy, Some tearPathStr, Some ly =>
          Some ([(0, fy)] ++ tearPathStr
                  ++ [(1000, ly); (1000, 1000); (0, 1000)])%Z
      | _, _, _ => None
      end.

End Geometry.

(** ** Drag progress (lines 194-206 of [handleCoverPointerMove]) *)

Module Progress.

Import Js.
Local Open Scope float_scope.

(** [el ? Math.sqrt(el.offsetWidth ** 2 + el.offsetHeight ** 2) : 700]. *)
Definition coverDiagonal (el : option (number * number)) : number :=
  match el with
  | Some (offsetWidth, offsetHeight) =>
      Math_sqrt (square offsetWidth + square offsetHeight)
  | None => 700
  end.

Definition requiredDist (el : option (number * number)) : number :=
  coverDiagonal el * 0.85.

Definition totalDist (startX startY clientX clientY : number) : number :=
  let totalDx := clientX - startX in
  let totalDy := clientY - startY in
  Math_sqrt (totalDx * totalDx + totalDy * totalDy).

Definition dragProgress (el : option (number * number))
    (startX startY clientX clientY : number) : number :=
  Math_min (totalDist startX startY clientX clientY / requiredDist el) 1.

End Progress.

(** ** Gesture tracking state machine

    The component's tear state ([useState] and [useRef] cells, lines
    117-124) and its four handlers.  An event is handled to completion,
    and the component rendered again, before the next one arrives; queued
    state updaters are applied in the order they are queued.

    A handler is a closure of the render that created it: it reads
    [isRevealed], [isDragging] and [tearProgress] as that render had them,
    and the refs and the arguments of functional updates as they are when
    it runs.  While the cover is in the rendered tree its handlers are
    those of the latest render.  When the letter is revealed and nothing
    takes the place of the cover under [AnimatePresence] (lines 483-708),
    the cover stays mounted until its exit animation ends, with the
    handlers of the last render that had it. *)

Module Tear.

Import Js Geometry.
Local Open Scope float_scope.

(** What the handlers read of the cover element: its bounding rectangle
    and its offset size. *)
Record Cover : Type := mkCover {
  rectLeft : number;
  rectTop : number;
  rectWidth : number;
  rectHeight : number;
  offsetWidth : number;
  offsetHeight : number
}.

(** [coverRef.current] and [isMobileRef.current]. *)
Record Env : Type := mkEnv {
  coverRef : option Cover;
  isMobileRef : bool
}.

(** What the handlers of one render have captured. *)
Record Closure : Type := mkClosure {
  seenRevealed : bool;
  seenDragging : bool;
  seenProgress : number
}.

Record State : Type := mkState {
  isRevealed : bool;
  isDragging : bool;
  tearProgress : number;
  tearPath : list TearPoint;
  completedTear : option (list TearPoint);
  dragStartRef : option (number * number);
  lastPointRef : option TearPoint;
  (** how many times [onRevealed] has been called *)
  onRevealedCalls : nat;
  (** the cover when it is out of the rendered tree and still mounted,
      with what its handlers have captured *)
  exitingCover : option Closure
}.

Definition initial : State :=
  mkState false false 0 [] None None None 0 None.

Definition closureOf (st : State) : Closure :=
  mkClosure (isRevealed st) (isDragging st) (tearProgress st).

Definition withExitingCover (cover : option Closure) (st : State) : State :=
  mkState (isRevealed st) (isDragging st) (tearProgress st) (tearPath st)
    (completedTear st) (dragStartRef st) (lastPointRef st)
    (onRevealedCalls st) cover.

Inductive InteractionPhase : Type := Idle | Dragging | Revealed.

Definition phase (st : State) : InteractionPhase :=
  if isRevealed st then Revealed
  else if isDragging st then Dragging else Idle.

(** The four events of the cover, and the end of its exit animation. *)
Inductive Event : Type :=
| PointerDown (clientX clientY : number)
| PointerMove (clientX clientY : number)
| PointerUp
| Click
| ExitComplete.

(** [getNormalizedPos] (lines 151-162). *)
Definition getNormalizedPos (env : Env) (clientX clientY : number)
    : option TearPoint :=
  match coverRef env with
  | None => None
  | Some rect =>
      Some (mkPoint
              (Math_max 0 (Math_min 1
                 ((clientX - rectLeft rect) / rectWidth rect)))
              (Math_max 0 (Math_min 1
                 ((clientY - rectTop rect) / rectHeight rect))))
  end.

(** *** The handlers of the latest render *)

(** [handleCoverPointerDown] (lines 164-176); capturing the pointer
    changes no tear state. *)
Definition handleCoverPointerDown (env : Env) (st : State)
    (clientX clientY : number) : State :=
  if isRevealed st then st
  else
    match getNormalizedPos env clientX clientY with
    | None => st
    | Some pos =>
        mkState (isRevealed st) true (tearProgress st) [pos]
          (completedTear st) (Some (clientX, clientY)) (Some pos)
          (onRevealedCalls st) (exitingCover st)
    end.

(** [finishTear] (lines 220-257); it reads nothing of its render. *)
Definition finishTear (lastPos : option TearPoint) (st : State) : State :=
  let currentPath := tearPath st in
  let finalPath :=
    currentPath ++ match lastPos with Some p => [p] | None => [] end in
  let completed :=
    if (2 <=? length finalPath)%nat then
      let first := nth 0 finalPath undefinedPoint in
      let last := nth (length finalPath - 1) finalPath undefinedPoint in
      let startEdge :=
        extendToEdge first
          (if (1 <? length finalPath)%nat
           then nth 1 finalPath undefinedPoint else first)
          true in
      let endEdge :=
        extendToEdge last
          (if (1 <? length finalPath)%nat
           then nth (length finalPath - 2) finalPath undefinedPoint
           else last)
          false in
      Some ([startEdge] ++ finalPath ++ [endEdge])
    else completedTear st in
  mkState true false (tearProgress st) finalPath completed None None
    (S (onRevealedCalls st)) (exitingCover st).

Definition offsetSize (env : Env) : option (number * number) :=
  match coverRef env with
  | Some el => Some (offsetWidth el, offsetHeight el)
  | None => None
  end.

(** [handleCoverPointerMove] (lines 178-218). *)
Definition handleCoverPointerMove (env : Env) (st : State)
    (clientX clientY : number) : State :=
  match dragStartRef st with
  | None => st
  | Some (startX, startY) =>
      if negb (isDragging st) || isRevealed st then st
      else
        match getNormalizedPos env clientX clientY, lastPointRef st with
        | Some pos, Some lastPoint =>
            let dx := x pos - x lastPoint in
            let dy := y pos - y lastPoint in
            let dist := Math_sqrt (dx * dx + dy * dy) in
            let moved := gtb dist 0.012 in
            let lastPoint' := if moved then pos else lastPoint in
            let tearPath' :=
              if moved then tearPath st ++ [pos] else tearPath st in
            let progress :=
              Progress.dragProgress (offsetSize env)
                startX startY clientX clientY in
            let st' :=
              mkState (isRevealed st) (isDragging st) progress tearPath'
                (completedTear st) (dragStartRef st) (Some lastPoint')
                (onRevealedCalls st) (exitingCover st) in
            let nearEdge :=
              (x pos <=? 0.03) || geb (x pos) 0.97
              || (y pos <=? 0.03) || geb (y pos) 0.97 in
            if geb progress 1 || (geb progress 0.75 && nearEdge)
            then finishTear (Some pos) st'
            else st'
        | _, _ => st
        end
  end.

(** [handleCoverPointerUp] (lines 259-282). *)
Definition nearEdgeOnRelease (st : State) : bool :=
  match lastPointRef st with
  | Some lastPt =>
      (x lastPt <=? 0.04) || geb (x lastPt) 0.96
      || (y lastPt <=? 0.04) || geb (y lastPt) 0.96
  | None => false
  end.

Definition commitsOnRelease (st : State) : bool :=
  geb (tearProgress st) 0.85
  || (geb (tearProgress st) 0.6 && nearEdgeOnRelease st).

Definition handleCoverPointerUp (st : State) : State :=
  if isRevealed st then st
  else
    let st' :=
      if commitsOnRelease st then finishTear None st
      else
        mkState (isRevealed st) (isDragging st) 0 []
          (completedTear st) (dragStartRef st) (lastPointRef st)
          (onRevealedCalls st) (exitingCover st) in
    mkState (isRevealed st') false (tearProgress st') (tearPath st')
      (completedTear st') None None (onRevealedCalls st') (exitingCover st').

(** The loop of lines 292-298, from [i] for [count] turns. *)
Fixpoint fakeTearPoints (count : nat) (i : Z) (rng : Noise.rng)
    : list TearPoint :=
  match count with
  | O => []
  | S k =>
      let t := of_Z i / 20 in
      let '(r1, rng1) := Noise.next_number rng in
      let '(r2, rng2) := Noise.next_number rng1 in
      mkPoint (0.1 + t * 0.8 + (r1 - 0.5) * 0.03)
              (0.3 + t * 0.4 + (r2 - 0.5) * 0.03)
        :: fakeTearPoints k (i + 1) rng2
  end.

Definition fakeTear : list TearPoint :=
  fakeTearPoints 21 0 (Noise.seededRandom 42).

(** [handleTapOpen] (lines 285-304). *)
Definition handleTapOpen (env : Env) (st : State) : State :=
  if isRevealed st || isDragging st then st
  else if negb (isMobileRef env) then st
  else
    mkState true (isDragging st) 1 fakeTear
      (Some ([mkPoint 0 0.28] ++ fakeTear ++ [mkPoint 1 0.72]))
      (dragStartRef st) (lastPointRef st) (S (onRevealedCalls st))
      (exitingCover st).

(** *** The handlers of an earlier render

    The same four functions, reading [isRevealed], [isDragging] and
    [tearProgress] from the closure [seen] and everything else from the
    component as it is. *)

Definition handleCoverPointerDownIn (seen : Closure) (env : Env)
    (st : State) (clientX clientY : number) : State :=
  if seenRevealed seen then st
  else
    match getNormalizedPos env clientX clientY with
    | None => st
    | Some pos =>
        mkState (isRevealed st) true (tearProgress st) [pos]
          (completedTear st) (Some (clientX, clientY)) (Some pos)
          (onRevealedCalls st) (exitingCover st)
    end.

Definition handleCoverPointerMoveIn (seen : Closure) (env : Env)
    (st : State) (clientX clientY : number) : State :=
  match dragStartRef st with
  | None => st
  | Some (startX, startY) =>
      if negb (seenDragging seen) || seenRevealed seen then st
      else
        match getNormalizedPos env clientX clientY, lastPointRef st with
        | Some pos, Some lastPoint =>
            let dx := x pos - x lastPoint in
            let dy := y pos - y lastPoint in
            let dist := Math_sqrt (dx * dx + dy * dy) in
            let moved := gtb dist 0.012 in
            let lastPoint' := if moved then pos else lastPoint in
            let tearPath' :=
              if moved then tearPath st ++ [pos] else tearPath st in
            let progress :=
              Progress.dragProgress (offsetSize env)
                startX startY clientX clientY in
            let st' :=
              mkState (isRevealed st) (isDragging st) progress tearPath'
                (completedTear st) (dragStartRef st) (Some lastPoint')
                (onRevealedCalls st) (exitingCover st) in
            let nearEdge :=
              (x pos <=? 0.03) || geb (x pos) 0.97
              || (y pos <=? 0.03) || geb (y pos) 0.97 in
            if geb progress 1 || (geb progress 0.75 && nearEdge)
            then finishTear (Some pos) st'
            else st'
        | _, _ => st
        end
  end.

Definition commitsOnReleaseIn (seen : Closure) (st : State) : bool :=
  geb (seenProgress seen) 0.85
  || (geb (seenProgress seen) 0.6 && nearEdgeOnRelease st).

Definition handleCoverPointerUpIn (seen : Closure) (st : State) : State :=
  if seenRevealed seen then st
  else
    let st' :=
      if commitsOnReleaseIn seen st then finishTear None st
      else
        mkState (isRevealed st) (isDragging st) 0 []
          (completedTear st) (dragStartRef st) (lastPointRef st)
          (onRevealedCalls st) (exitingCover st) in
    mkState (isRevealed st') false (tearProgress st') (tearPath st')
      (completedTear st') None None (onRevealedCalls st') (exitingCover st').

Definition handleTapOpenIn (seen : Closure) (env : Env) (st : State)
    : State :=
  if seenRevealed seen || seenDragging seen then st
  else if negb (isMobileRef env) then st
  else
    mkState true (isDragging st) 1 fakeTear
      (Some ([mkPoint 0 0.28] ++ fakeTear ++ [mkPoint 1 0.72]))
      (dragStartRef st) (lastPointRef st) (S (onRevealedCalls st))
      (exitingCover st).

(** *** What is rendered, and which cover takes the events *)

(** The derived geometry of a state (the [useMemo] values). *)
Definition jaggedOf (st : State) : list TearPoint :=
  jaggedTearPoints (tearPath st) (completedTear st) (tearProgress st).

(** The child of [AnimatePresence] (lines 484-708): the cover, the two
    torn pieces, or nothing. *)
Inductive CoverView : Type := CoverShown | TornPieces | NoCover.

Definition coverView (st : State) : CoverView :=
  if negb (isRevealed st) then CoverShown
  else
    match completedTear st with
    | Some _ =>
        if (2 <=? length (jaggedOf st))%nat then TornPieces else NoCover
    | None => NoCover
    end.

(** The render that follows an event handled in [before].  The cover and
    the torn pieces have no key, so the pieces replace the cover at once;
    when nothing is rendered in its place, the cover that [before] showed
    stays mounted with the handlers of [before], and a cover that was
    already on its way out stays as it is. *)
Definition rendered (before next : State) : State :=
  match coverView next with
  | CoverShown | TornPieces => withExitingCover None next
  | NoCover =>
      if isRevealed before then next
      else withExitingCover (Some (closureOf before)) next
  end.

(** An event handled by the handlers of the latest render, and by those
    of the render [seen] was captured in. *)
Definition handle (env : Env) (st : State) (ev : Event) : State :=
  match ev with
  | PointerDown clientX clientY =>
      handleCoverPointerDown env st clientX clientY
  | PointerMove clientX clientY =>
      handleCoverPointerMove env st clientX clientY
  | PointerUp => handleCoverPointerUp st
  | Click => handleTapOpen env st
  | ExitComplete => st
  end.

Definition handleIn (seen : Closure) (env : Env) (st : State) (ev : Event)
    : State :=
  match ev with
  | PointerDown clientX clientY =>
      handleCoverPointerDownIn seen env st clientX clientY
  | PointerMove clientX clientY =>
      handleCoverPointerMoveIn seen env st clientX clientY
  | PointerUp => handleCoverPointerUpIn seen st
  | Click => handleTapOpenIn seen env st
  | ExitComplete => st
  end.

(** An event reaches the handlers of the cover that is mounted: those of
    the latest render while the letter is not revealed, those the exiting
    cover has kept after, none once it is gone. *)
Definition step (env : Env) (st : State) (ev : Event) : State :=
  match ev with
  | ExitComplete => withExitingCover None st
  | _ =>
      if isRevealed st then
        match exitingCover st with
        | Some seen => rendered st (handleIn seen env st ev)
        | None => st
        end
      else rendered st (handle env st ev)
  end.

Definition run (env : Env) (st : State) (evs : list Event) : State :=
  fold_left (step env) evs st.

End Tear.

(** ** The page around the letter ([Index])

    [Index] passes [handleRevealed] to the letter as [onRevealed]; each
    call sets a timer of 5000 ms that sets [scrollUnlocked].  While
    [scrollUnlocked] is false the body does not scroll and the flower
    section is not rendered. *)

Module Page.

Local Open Scope N_scope.

(** The letter, [scrollUnlocked], the time in milliseconds, and the times
    at which the timers that have not run yet are due. *)
Record State : Type := mkPage {
  letter : Tear.State;
  scrollUnlocked : bool;
  clock : N;
  timers : list N
}.

Definition initial : State := mkPage Tear.initial false 0 [].

(** An event of the letter's cover, time passing, or the browser running
    the timers that are due (at their time or later). *)
Inductive Event : Type :=
| Letter (ev : Tear.Event)
| Elapse (ms : N)
| RunTimers.

(** [setTimeout(() => setScrollUnlocked(true), 5000)]. *)
Definition handleRevealed (st : State) : State :=
  mkPage (letter st) (scrollUnlocked st) (clock st)
    (timers st ++ [clock st + 5000]).

Definition isDue (now t : N) : bool := t <=? now.

Definition step (env : Tear.Env) (st : State) (ev : Event) : State :=
  match ev with
  | Letter e =>
      let letter' := Tear.step env (letter st) e in
      let calls :=
        (Tear.onRevealedCalls letter'
         - Tear.onRevealedCalls (letter st))%nat in
      Nat.iter calls handleRevealed
        (mkPage letter' (scrollUnlocked st) (clock st) (timers st))
  | Elapse ms =>
      mkPage (letter st) (scrollUnlocked st) (clock st + ms) (timers st)
  | RunTimers =>
      mkPage (letter st)
        (scrollUnlocked st || existsb (isDue (clock st)) (timers st))
        (clock st)
        (filter (fun t => negb (isDue (clock st) t)) (timers st))
  end.

Definition run (env : Tear.Env) (st : State) (evs : list Event) : State :=
  fold_left (step env) evs st.

(** [{scrollUnlocked && <FlowerSection />}], and the effect that sets
    [document.body.style.overflow] to ["hidden"] or to the empty string. *)
Definition flowerSectionShown (st : State) : bool := scrollUnlocked st.

Definition bodyScrollLocked (st : State) : bool := negb (scrollUnlocked st).

(** The milliseconds that pass during a list of events. *)
Fixpoint elapsed (evs : list Event) : N :=
  match evs with
  | [] => 0
  | Elapse ms :: rest => ms + elapsed rest
  | _ :: rest => elapsed rest
  end.

End Page.

(** * Properties *)

(** ** Order facts about doubles

    Each comparison of two doubles is the comparison of their two
    specification values ([SFcompare]), which is [None] exactly when one of
    them is NaN. *)

Module FloatFacts.

Import Js.
Local Open Scope float_scope.

Lemma SFcompare_refl (s : spec_float) :
  s <> S754_nan -> SFcompare s s = Some Eq.
Proof.
  destruct s as [b | b | | b m e]; simpl; intros Hs;
    try reflexivity; try congruence.
  - destruct b; reflexivity.
  - rewrite Z.compare_refl, Pos.compare_cont_refl. destruct b; reflexivity.
Qed.

Lemma SFcompare_None (s t : spec_float) :
  SFcompare s t = None <-> s = S754_nan \/ t = S754_nan.
Proof.
  split.
  - destruct s, t; simpl; intros Hc; try discriminate; auto.
  - intros [-> | ->]; [reflexivity | destruct s; reflexivity].
Qed.

Lemma SFcompare_sym (s t : spec_float) (c : comparison) :
  SFcompare s t = Some c -> SFcompare t s = Some (CompOpp c).
Proof.
  destruct s as [b | b | | b m e], t as [b' | b' | | b' m' e']; simpl;
    intros Hc; try discriminate; inversion Hc; subst; clear Hc;
    try (destruct b; reflexivity); try (destruct b'; reflexivity);
    try (destruct b, b'; reflexivity).
  assert (Hm : Pos.compare_cont Eq m' m
               = CompOpp (Pos.compare_cont Eq m m'))
    by (rewrite Pos.compare_cont_antisym; reflexivity).
  f_equal. rewrite (Z.compare_antisym e e'), Hm.
  destruct b, b'; simpl; try reflexivity;
    destruct (e ?= e')%Z; simpl; try reflexivity;
    destruct (Pos.compare_cont Eq m m'); reflexivity.
Qed.

Lemma is_nan_spec (a : number) :
  is_nan a = true <-> Prim2SF a = S754_nan.
Proof.
  unfold is_nan. rewrite FloatAxioms.eqb_spec. unfold SFeqb. split.
  - intros Hn. destruct (Prim2SF a) eqn:Ea; try reflexivity;
      rewrite SFcompare_refl in Hn by discriminate; discriminate.
  - intros ->. reflexivity.
Qed.

Lemma not_nan_spec (a : number) :
  is_nan a = false <-> Prim2SF a <> S754_nan.
Proof.
  rewrite <- is_nan_spec. destruct (is_nan a); split; congruence.
Qed.

Lemma ltb_leb (a b : number) : (a <? b) = true -> (a <=? b) = true.
Proof.
  rewrite FloatAxioms.ltb_spec, FloatAxioms.leb_spec. unfold SFltb, SFleb.
  destruct (SFcompare (Prim2SF a) (Prim2SF b)) as [[] |]; congruence.
Qed.

Lemma leb_not_nan (a b : number) :
  (a <=? b) = true -> is_nan a = false /\ is_nan b = false.
Proof.
  rewrite FloatAxioms.leb_spec, !not_nan_spec. unfold SFleb.
  destruct (SFcompare (Prim2SF a) (Prim2SF b)) eqn:Ec; [| discriminate].
  intros _. split; intros Hn;
    assert (Hnone : SFcompare (Prim2SF a) (Prim2SF b) = None)
      by (apply SFcompare_None; auto);
    congruence.
Qed.

(** Two numbers neither of which is below the other are equal in the
    order. *)
Lemma unordered_leb (a b : number) :
  is_nan a = false -> is_nan b = false ->
  (a <? b) = false -> (b <? a) = false ->
  (a <=? b) = true /\ (b <=? a) = true.
Proof.
  rewrite !not_nan_spec, !FloatAxioms.ltb_spec, !FloatAxioms.leb_spec.
  unfold SFltb, SFleb. intros Ha Hb.
  destruct (SFcompare (Prim2SF a) (Prim2SF b)) as [c |] eqn:Ec.
  - rewrite (SFcompare_sym _ _ _ Ec). destruct c; simpl; intuition congruence.
  - apply SFcompare_None in Ec. tauto.
Qed.

Lemma unordered_eqb (a b : number) :
  is_nan a = false -> is_nan b = false ->
  (a <? b) = false -> (b <? a) = false -> (a =? b) = true.
Proof.
  rewrite !not_nan_spec, !FloatAxioms.ltb_spec, FloatAxioms.eqb_spec.
  unfold SFltb, SFeqb. intros Ha Hb.
  destruct (SFcompare (Prim2SF a) (Prim2SF b)) as [c |] eqn:Ec.
  - rewrite (SFcompare_sym _ _ _ Ec). destruct c; simpl; congruence.
  - apply SFcompare_None in Ec. tauto.
Qed.

Lemma eqb_refl (a : number) : is_nan a = false -> (a =? a) = true.
Proof. unfold is_nan. now destruct (a =? a). Qed.

Lemma ltb_not_leb (a b : number) : (a <? b) = true -> (b <=? a) = false.
Proof.
  rewrite FloatAxioms.ltb_spec, FloatAxioms.leb_spec. unfold SFltb, SFleb.
  destruct (SFcompare (Prim2SF a) (Prim2SF b)) as [c |] eqn:Ec;
    [| discriminate].
  rewrite (SFcompare_sym _ _ _ Ec). destruct c; simpl; congruence.
Qed.

(** [v] lies in the closed unit interval. *)
Definition in_unit (v : number) : Prop :=
  (0 <=? v) && (v <=? 1) = true.

Lemma in_unit_not_nan (v : number) : in_unit v -> is_nan v = false.
Proof.
  unfold in_unit. intros Hv. apply andb_prop in Hv as [H0 _].
  now apply leb_not_nan in H0.
Qed.

Lemma Math_min_1_cases (v : number) :
  is_nan v = false ->
  Math_min 1 v = 1 \/ (Math_min 1 v = v /\ (v <=? 1) = true).
Proof.
  intros Hv. unfold Math_min. rewrite Hv.
  change (is_nan 1 || false) with false. cbv iota.
  destruct (1 <? v) eqn:E1; [now left |].
  destruct (v <? 1) eqn:E2.
  - right. split; [reflexivity | now apply ltb_leb].
  - change (is_neg_zero 1) with false. cbv iota. right.
    split; [reflexivity |].
    now apply (unordered_leb 1 v).
Qed.

Lemma Math_max_0_unit (w : number) :
  is_nan w = false -> (w <=? 1) = true -> in_unit (Math_max 0 w).
Proof.
  intros Hw Hle. unfold Math_max. rewrite Hw.
  change (is_nan 0 || false) with false. cbv iota.
  destruct (0 <? w) eqn:E1.
  - unfold in_unit. now rewrite (ltb_leb _ _ E1), Hle.
  - destruct (w <? 0); [reflexivity |].
    change (is_neg_zero 0) with false. reflexivity.
Qed.

(** *** Signs

    A double is [unsigned] when its sign bit is clear or it is NaN: +0, a
    positive number, +infinity or NaN.  Squares are unsigned, and sums,
    products, quotients and square roots of unsigned doubles are. *)

Definition sf_unsigned (s : spec_float) : bool :=
  match s with
  | S754_zero false | S754_infinity false | S754_finite false _ _
  | S754_nan => true
  | _ => false
  end.

Definition unsigned (a : number) : Prop := sf_unsigned (Prim2SF a) = true.

Lemma binary_round_aux_unsigned (m e : Z) (l : location) :
  sf_unsigned (binary_round_aux prec emax false m e l) = true.
Proof.
  unfold binary_round_aux.
  destruct (shr_fexp prec emax m e l) as [mrs e'].
  destruct (shr_fexp prec emax _ e' loc_Exact) as [mrs2 e2].
  destruct (shr_m mrs2); [reflexivity | | reflexivity].
  destruct (_ <=? _)%Z; reflexivity.
Qed.

Lemma binary_round_unsigned (m : positive) (e : Z) :
  sf_unsigned (binary_round prec emax false m e) = true.
Proof.
  unfold binary_round. destruct (shl_align m e _) as [mz ez].
  apply binary_round_aux_unsigned.
Qed.

Ltac sf_sign H :=
  match type of H with
  | sf_unsigned (S754_zero ?b) = true => destruct b; [discriminate H |]
  | sf_unsigned (S754_infinity ?b) = true => destruct b; [discriminate H |]
  | sf_unsigned (S754_finite ?b _ _) = true => destruct b; [discriminate H |]
  | _ => idtac
  end.

Lemma square_unsigned (a : number) : unsigned (a * a).
Proof.
  unfold unsigned. rewrite FloatAxioms.mul_spec. unfold SF64mul, SFmul.
  destruct (Prim2SF a) as [b | b | | b m e]; try (destruct b; reflexivity).
  - reflexivity.
  - replace (xorb b b) with false by (destruct b; reflexivity).
    apply binary_round_aux_unsigned.
Qed.

Lemma mul_unsigned (a b : number) :
  unsigned a -> unsigned b -> unsigned (a * b).
Proof.
  unfold unsigned. rewrite FloatAxioms.mul_spec. unfold SF64mul, SFmul.
  intros Ha Hb.
  destruct (Prim2SF a) as [sa | sa | | sa ma ea]; sf_sign Ha;
    destruct (Prim2SF b) as [sb | sb | | sb mb eb]; sf_sign Hb;
    try reflexivity.
  apply binary_round_aux_unsigned.
Qed.

Lemma add_unsigned (a b : number) :
  unsigned a -> unsigned b -> unsigned (a + b).
Proof.
  unfold unsigned. rewrite FloatAxioms.add_spec. unfold SF64add, SFadd.
  intros Ha Hb.
  destruct (Prim2SF a) as [sa | sa | | sa ma ea]; sf_sign Ha;
    destruct (Prim2SF b) as [sb | sb | | sb mb eb]; sf_sign Hb;
    try reflexivity.
  cbn [cond_Zopp Z.add]. unfold binary_normalize.
  apply binary_round_unsigned.
Qed.

Lemma div_unsigned (a b : number) :
  unsigned a -> unsigned b -> unsigned (a / b).
Proof.
  unfold unsigned. rewrite FloatAxioms.div_spec. unfold SF64div, SFdiv.
  intros Ha Hb.
  destruct (Prim2SF a) as [sa | sa | | sa ma ea]; sf_sign Ha;
    destruct (Prim2SF b) as [sb | sb | | sb mb eb]; sf_sign Hb;
    try reflexivity.
  destruct (SFdiv_core_binary _ _ _ _ _ _) as [[mz ez] lz].
  apply binary_round_aux_unsigned.
Qed.

Lemma sqrt_unsigned (a : number) :
  unsigned a -> unsigned (PrimFloat.sqrt a).
Proof.
  unfold unsigned. rewrite FloatAxioms.sqrt_spec. unfold SF64sqrt, SFsqrt.
  intros Ha.
  destruct (Prim2SF a) as [sa | sa | | sa ma ea]; sf_sign Ha;
    try reflexivity.
  destruct (SFsqrt_core_binary _ _ _ _) as [[mz ez] lz].
  apply binary_round_aux_unsigned.
Qed.

Lemma unsigned_leb (a : number) :
  unsigned a -> is_nan a = false -> (0 <=? a) = true.
Proof.
  unfold unsigned. rewrite not_nan_spec, FloatAxioms.leb_spec.
  change (Prim2SF 0) with (S754_zero false). unfold SFleb.
  intros Ha Hn.
  destruct (Prim2SF a) as [sa | sa | | sa ma ea]; sf_sign Ha;
    try reflexivity.
  congruence.
Qed.

(** [Math.min(q, 1)] of an unsigned [q] is NaN or in the unit interval. *)
Lemma Math_min_unsigned_1 (q : number) :
  unsigned q -> is_nan (Math_min q 1) = false -> in_unit (Math_min q 1).
Proof.
  intros Hq. unfold Math_min.
  destruct (is_nan q) eqn:Hn; [intros H; discriminate H |]. intros _.
  change (false || is_nan 1) with false. cbv iota.
  pose proof (unsigned_leb q Hq Hn) as H0.
  destruct (q <? 1) eqn:E1.
  { unfold in_unit. now rewrite H0, (ltb_leb _ _ E1). }
  destruct (1 <? q) eqn:E2; [reflexivity |].
  destruct (is_neg_zero q); [| reflexivity].
  unfold in_unit. rewrite H0.
  now destruct (unordered_leb q 1 Hn eq_refl E1 E2) as [-> _].
Qed.

End FloatFacts.

(** ** More order facts about doubles *)

Module FloatOrder.

Import Js FloatFacts.
Local Open Scope float_scope.

Lemma SFcompare_Lt_trans (a b c : spec_float) :
  SFcompare a b = Some Lt -> SFcompare b c = Some Lt ->
  SFcompare a c = Some Lt.
Proof.
  destruct a as [sa | sa | | sa ma ea], b as [sb | sb | | sb mb eb],
    c as [sc | sc | | sc mc ec]; simpl;
    try discriminate;
    try (destruct sa; discriminate);
    try (destruct sb; discriminate);
    try (destruct sc; discriminate);
    try (destruct sa, sb; discriminate);
    try (destruct sb, sc; discriminate);
    try (destruct sa, sb, sc; simpl; congruence).
  intros Hab Hbc.
  injection Hab as Hab. injection Hbc as Hbc. f_equal.
  change (Pos.compare_cont Eq ma mb) with (Pos.compare ma mb) in *.
  change (Pos.compare_cont Eq mb mc) with (Pos.compare mb mc) in *.
  change (Pos.compare_cont Eq ma mc) with (Pos.compare ma mc) in *.
  destruct sa, sb, sc; try discriminate; try reflexivity;
    destruct (Z.compare_spec ea eb), (Z.compare_spec eb ec),
      (Z.compare_spec ea ec); try discriminate; try lia; try reflexivity;
    subst;
    destruct (Pos.compare_spec ma mb), (Pos.compare_spec mb mc),
      (Pos.compare_spec ma mc); simpl in *;
    try discriminate; try lia; try reflexivity.
Qed.

Lemma ltb_trans (a b c : number) :
  (a <? b) = true -> (b <? c) = true -> (a <? c) = true.
Proof.
  rewrite !FloatAxioms.ltb_spec. unfold SFltb.
  destruct (SFcompare (Prim2SF a) (Prim2SF b)) as [[] |] eqn:Eab;
    try discriminate.
  destruct (SFcompare (Prim2SF b) (Prim2SF c)) as [[] |] eqn:Ebc;
    try discriminate.
  now rewrite (SFcompare_Lt_trans _ _ _ Eab Ebc).
Qed.

Lemma SFcompare_Lt_Eq_trans (a b c : spec_float) :
  SFcompare a b = Some Lt -> SFcompare b c = Some Eq ->
  SFcompare a c = Some Lt.
Proof.
  destruct a as [sa | sa | | sa ma ea], b as [sb | sb | | sb mb eb],
    c as [sc | sc | | sc mc ec]; simpl;
    try discriminate;
    try (destruct sa; discriminate);
    try (destruct sb; discriminate);
    try (destruct sc; discriminate);
    try (destruct sa, sb; discriminate);
    try (destruct sb, sc; discriminate);
    try (destruct sa, sb, sc; simpl; congruence).
  intros Hab Hbc.
  injection Hab as Hab. injection Hbc as Hbc. f_equal.
  change (Pos.compare_cont Eq ma mb) with (Pos.compare ma mb) in *.
  change (Pos.compare_cont Eq mb mc) with (Pos.compare mb mc) in *.
  change (Pos.compare_cont Eq ma mc) with (Pos.compare ma mc) in *.
  destruct sa, sb, sc; try discriminate; try reflexivity;
    destruct (Z.compare_spec ea eb), (Z.compare_spec eb ec),
      (Z.compare_spec ea ec); try discriminate; try lia; try reflexivity;
    subst;
    destruct (Pos.compare_spec ma mb), (Pos.compare_spec mb mc),
      (Pos.compare_spec ma mc); simpl in *;
    try discriminate; try lia; try reflexivity.
Qed.

Lemma ltb_leb_trans (a b c : number) :
  (a <? b) = true -> (b <=? c) = true -> (a <? c) = true.
Proof.
  rewrite !FloatAxioms.ltb_spec, FloatAxioms.leb_spec. unfold SFltb, SFleb.
  destruct (SFcompare (Prim2SF a) (Prim2SF b)) as [[] |] eqn:Eab;
    try discriminate.
  destruct (SFcompare (Prim2SF b) (Prim2SF c)) as [[] |] eqn:Ebc;
    try discriminate.
  - now rewrite (SFcompare_Lt_Eq_trans _ _ _ Eab Ebc).
  - now rewrite (SFcompare_Lt_trans _ _ _ Eab Ebc).
Qed.



Lemma leb_refl (a : number) : is_nan a = false -> (a <=? a) = true.
Proof.
  rewrite not_nan_spec, FloatAxioms.leb_spec. unfold SFleb. intros Ha.
  destruct (Prim2SF a) as [s | s | | s m e] eqn:Ea; try congruence.
  - reflexivity.
  - now destruct s.
  - rewrite SFcompare_refl by discriminate. reflexivity.
Qed.




Lemma ltb_irrefl (a : number) : (a <? a) = false.
Proof.
  rewrite FloatAxioms.ltb_spec. unfold SFltb.
  destruct (Prim2SF a) as [s | s | | s m e] eqn:Ea; try reflexivity.
  - now destruct s.
  - rewrite SFcompare_refl by discriminate. reflexivity.
Qed.

End FloatOrder.

(** ** Finite doubles

    A difference of finite doubles and a quotient by a finite double other
    than zero are never NaN (they may overflow to an infinity). *)

Module FloatFinite.

Import Js FloatFacts.
Local Open Scope float_scope.

Definition sf_finite (s : spec_float) : bool :=
  match s with
  | S754_zero _ | S754_finite _ _ _ => true
  | _ => false
  end.

Lemma is_finite_spec (a : number) :
  is_finite a = sf_finite (Prim2SF a).
Proof.
  unfold is_finite, is_infinity, is_nan.
  rewrite !FloatAxioms.eqb_spec, FloatAxioms.abs_spec. unfold SFeqb.
  change (Prim2SF infinity) with (S754_infinity false).
  destruct (Prim2SF a) as [s | s | | s m e]; try reflexivity.
  - now destruct s.
  - cbn [SFabs sf_finite]. rewrite SFcompare_refl by discriminate.
    reflexivity.
Qed.

Lemma iter_pos_preserves {A : Type} (P : A -> Prop) (f : A -> A) :
  (forall v, P v -> P (f v)) ->
  forall p v, P v -> P (SpecFloat.iter_pos f p v).
Proof.
  intros Hf. induction p as [p IH | p IH |]; intros v Hv; cbn [SpecFloat.iter_pos].
  - apply IH, IH, Hf, Hv.
  - apply IH, IH, Hv.
  - apply Hf, Hv.
Qed.

Lemma shr_1_nonneg (mrs : shr_record) :
  (0 <= shr_m mrs)%Z -> (0 <= shr_m (shr_1 mrs))%Z.
Proof.
  destruct mrs as [m r s]. cbn [shr_m].
  destruct m as [| p | p]; [| destruct p | destruct p]; cbn; lia.
Qed.

Lemma shr_nonneg (mrs : shr_record) (e n : Z) :
  (0 <= shr_m mrs)%Z -> (0 <= shr_m (fst (shr mrs e n)))%Z.
Proof.
  intros Hm. unfold shr. destruct n as [| p | p]; cbn [fst]; try exact Hm.
  apply (iter_pos_preserves (fun v => (0 <= shr_m v)%Z)); [| exact Hm].
  exact shr_1_nonneg.
Qed.

Lemma shr_record_of_loc_m (m : Z) (l : location) :
  shr_m (shr_record_of_loc m l) = m.
Proof. destruct l as [| []]; reflexivity. Qed.

Lemma round_nearest_even_nonneg (m : Z) (l : location) :
  (0 <= m)%Z -> (0 <= round_nearest_even m l)%Z.
Proof.
  intros Hm. unfold round_nearest_even.
  destruct l as [| []]; try destruct (Z.even m); lia.
Qed.

Lemma shr_fexp_nonneg (m e : Z) (l : location) :
  (0 <= m)%Z -> (0 <= shr_m (fst (shr_fexp prec emax m e l)))%Z.
Proof.
  intros Hm. unfold shr_fexp. apply shr_nonneg.
  now rewrite shr_record_of_loc_m.
Qed.

(** Rounding a mantissa that is not negative never gives NaN. *)
Lemma binary_round_aux_not_nan (s : bool) (m e : Z) (l : location) :
  (0 <= m)%Z -> binary_round_aux prec emax s m e l <> S754_nan.
Proof.
  intros Hm. unfold binary_round_aux.
  pose proof (shr_fexp_nonneg m e l Hm) as H1.
  destruct (shr_fexp prec emax m e l) as [mrs1 e1]. cbn [fst] in H1.
  pose proof (shr_fexp_nonneg
                (round_nearest_even (shr_m mrs1) (loc_of_shr_record mrs1))
                e1 loc_Exact (round_nearest_even_nonneg _ _ H1)) as H2.
  destruct (shr_fexp prec emax _ e1 loc_Exact) as [mrs2 e2].
  cbn [fst] in H2.
  destruct (shr_m mrs2) as [| p | p]; [discriminate | | lia].
  destruct (_ <=? _)%Z; discriminate.
Qed.

Lemma binary_round_not_nan (s : bool) (m : positive) (e : Z) :
  binary_round prec emax s m e <> S754_nan.
Proof.
  unfold binary_round. destruct (shl_align m e _) as [mz ez].
  apply binary_round_aux_not_nan. lia.
Qed.

Lemma binary_normalize_not_nan (m e : Z) (szero : bool) :
  binary_normalize prec emax m e szero <> S754_nan.
Proof.
  unfold binary_normalize.
  destruct m; [discriminate | apply binary_round_not_nan ..].
Qed.

Lemma sub_finite_not_nan (a b : number) :
  is_finite a = true -> is_finite b = true -> is_nan (a - b) = false.
Proof.
  rewrite !is_finite_spec, not_nan_spec, FloatAxioms.sub_spec.
  unfold SF64sub, SFsub. intros Ha Hb.
  destruct (Prim2SF a) as [sa | sa | | sa ma ea]; try discriminate;
    destruct (Prim2SF b) as [sb | sb | | sb mb eb]; try discriminate.
  - destruct sa, sb; discriminate.
  - apply binary_normalize_not_nan.
Qed.

Lemma div_finite_not_nan (a b : number) :
  is_nan a = false -> is_finite b = true -> (b =? 0) = false ->
  is_nan (a / b) = false.
Proof.
  rewrite is_finite_spec, !not_nan_spec, FloatAxioms.eqb_spec,
    FloatAxioms.div_spec.
  change (Prim2SF 0) with (S754_zero false).
  unfold SF64div, SFdiv, SFeqb. intros Ha Hb Hnz.
  destruct (Prim2SF b) as [sb | sb | | sb mb eb]; try discriminate.
  destruct (Prim2SF a) as [sa | sa | | sa ma ea]; try discriminate;
    try congruence.
  unfold SFdiv_core_binary.
  set (m' := match _ with 0%Z => Z.pos ma | Z.pos _ => _ | Z.neg _ => 0%Z end).
  assert (Hm' : (0 <= m')%Z).
  { unfold m'. destruct (_ - _ - _)%Z; try lia.
    apply Z.shiftl_nonneg. lia. }
  pose proof (Z.div_pos m' (Z.pos mb) Hm' ltac:(lia)) as Hq.
  unfold Z.div in Hq.
  destruct (Z.div_eucl m' (Z.pos mb)) as [q r].
  apply binary_round_aux_not_nan. exact Hq.
Qed.

Lemma in_unit_finite (v : number) : in_unit v -> is_finite v = true.
Proof.
  unfold in_unit. intros Hv. apply andb_prop in Hv as [H0 H1].
  rewrite is_finite_spec.
  rewrite FloatAxioms.leb_spec in H0, H1.
  change (Prim2SF 0) with (S754_zero false) in H0.
  change (Prim2SF 1) with (S754_finite false 4503599627370496 (-52)) in H1.
  destruct (Prim2SF v) as [s | s | | s m e]; try reflexivity.
  - destruct s; discriminate.
  - discriminate.
Qed.

End FloatFinite.

(** ** Edge extension resolver *)

Module EdgeExtension.

Import Js Geometry FloatFacts.
Local Open Scope float_scope.

Lemma clamp01_unit (v : number) : is_nan v = false -> in_unit (clamp01 v).
Proof.
  intros Hv. unfold clamp01.
  destruct (Math_min_1_cases v Hv) as [-> | [-> Hle]].
  - reflexivity.
  - now apply Math_max_0_unit.
Qed.

(** Inside the unit interval the clamp changes nothing (but the sign of
    a zero). *)
Lemma clamp01_id (v : number) : in_unit v -> (clamp01 v =? v) = true.
Proof.
  intros Hv. pose proof (in_unit_not_nan v Hv) as Hn.
  unfold in_unit in Hv. apply andb_prop in Hv as [H0 H1].
  unfold clamp01.
  assert (Hmin : Math_min 1 v = v).
  { unfold Math_min. rewrite Hn. change (is_nan 1 || false) with false.
    cbv iota. destruct (1 <? v) eqn:E1.
    - apply ltb_not_leb in E1. congruence.
    - destruct (v <? 1); reflexivity. }
  rewrite Hmin. unfold Math_max. rewrite Hn.
  change (is_nan 0 || false) with false. cbv iota.
  destruct (0 <? v) eqn:E1; [now apply eqb_refl |].
  destruct (v <? 0) eqn:E2.
  - apply ltb_not_leb in E2. congruence.
  - change (is_neg_zero 0) with false. cbv iota.
    now apply unordered_eqb.
Qed.

Lemma validCandidate_not_nan (c : TearPoint) :
  validCandidate c = true -> is_nan (x c) = false /\ is_nan (y c) = false.
Proof.
  unfold validCandidate, geb. intros Hv.
  apply andb_prop in Hv as [Hv Hy1]. apply andb_prop in Hv as [Hv Hy0].
  apply andb_prop in Hv as [Hx0 Hx1].
  split; [now apply leb_not_nan in Hx1 | now apply leb_not_nan in Hy1].
Qed.

(** A point of the closed unit square. *)
Definition in_unit_square (p : TearPoint) : Prop :=
  in_unit (x p) /\ in_unit (y p).

Lemma pickCloser_unit (point : TearPoint) (acc : TearPoint * number)
    (c : TearPoint) :
  in_unit_square (fst acc) -> in_unit_square (fst (pickCloser point acc c)).
Proof.
  destruct acc as [best bestDist]. unfold pickCloser. intros Hb.
  destruct (validCandidate c) eqn:Hv; [| exact Hb].
  destruct (_ <? bestDist); [| exact Hb].
  apply validCandidate_not_nan in Hv as [Hx Hy].
  split; simpl; now apply clamp01_unit.
Qed.

Lemma fold_pickCloser_unit (point : TearPoint) (cs : list TearPoint) :
  forall acc, in_unit_square (fst acc) ->
  in_unit_square (fst (fold_left (pickCloser point) cs acc)).
Proof.
  induction cs as [| c cs IH]; intros acc Hacc; simpl; [exact Hacc |].
  apply IH. now apply pickCloser_unit.
Qed.

(** No candidate passes the test of line 751. *)
Definition noValidCandidate (cs : list TearPoint) : bool :=
  forallb (fun c => negb (validCandidate c)) cs.

Lemma fold_pickCloser_none (point : TearPoint) (cs : list TearPoint) :
  forall acc, noValidCandidate cs = true ->
  fold_left (pickCloser point) cs acc = acc.
Proof.
  induction cs as [| c cs IH]; intros [best bestDist] Hn; simpl;
    [reflexivity |].
  simpl in Hn. apply andb_prop in Hn as [Hc Hn].
  apply negb_true_iff in Hc. rewrite Hc. now apply IH.
Qed.

(** The candidates [extendToEdge] builds for its arguments. *)
Definition candidatesOf (point neighbor : TearPoint) : list TearPoint :=
  edgeCandidates point (x point - x neighbor) (y point - y neighbor).

Lemma extendToEdge_unfold (point neighbor : TearPoint) (isStart : bool) :
  extendToEdge point neighbor isStart
  = fst (fold_left (pickCloser point) (candidatesOf point neighbor)
           (fallbackEdge point, infinity)).
Proof. unfold extendToEdge, candidatesOf. destruct isStart; reflexivity. Qed.

(** C3.  Whatever the neighbour and the flag, and for every endpoint whose
    [x] is a number (not NaN), the point [extendToEdge] returns has both
    coordinates in the closed interval from 0 to 1; and when no candidate
    passes the validity test the point returned is the fallback, on the
    top boundary [y = 0], with the endpoint's [x] clamped, which is the
    endpoint's [x] itself when that is in the unit interval. *)
Theorem extendToEdge_in_unit_square
    (point neighbor : TearPoint) (isStart : bool) :
  is_nan (x point) = false ->
  in_unit (x (extendToEdge point neighbor isStart))
  /\ in_unit (y (extendToEdge point neighbor isStart))
  /\ (noValidCandidate (candidatesOf point neighbor) = true ->
      extendToEdge point neighbor isStart = mkPoint (clamp01 (x point)) 0
      /\ y (extendToEdge point neighbor isStart) = 0
      /\ (in_unit (x point) ->
          (x (extendToEdge point neighbor isStart) =? x point) = true)).
Proof.
  intros Hx. rewrite extendToEdge_unfold.
  assert (Hfb : in_unit_square (fst (fallbackEdge point, infinity))).
  { split; simpl; [now apply clamp01_unit | reflexivity]. }
  pose proof (fold_pickCloser_unit point (candidatesOf point neighbor) _ Hfb)
    as [Hox Hoy].
  split; [exact Hox |]. split; [exact Hoy |].
  intros Hn. rewrite fold_pickCloser_none by exact Hn.
  split; [reflexivity |]. split; [reflexivity |].
  intros Hu. now apply clamp01_id.
Qed.

(** An endpoint in the middle of the surface with no direction at all
    ([neighbor = point]): no candidate, so the fallback. *)
Lemma extendToEdge_in_unit_square_witness :
  let p := mkPoint 0.5 0.5 in
  in_unit (x (extendToEdge p p true))
  /\ in_unit (y (extendToEdge p p true))
  /\ (noValidCandidate (candidatesOf p p) = true ->
      extendToEdge p p true = mkPoint (clamp01 (x p)) 0
      /\ y (extendToEdge p p true) = 0
      /\ (in_unit (x p) -> (x (extendToEdge p p true) =? x p) = true)).
Proof.
  intros p.
  apply (extendToEdge_in_unit_square p p true). reflexivity.
Defined.

(** The fallback is really taken there, and the result is the top edge
    above the endpoint. *)
Example extendToEdge_no_direction :
  noValidCandidate (candidatesOf (mkPoint 0.5 0.5) (mkPoint 0.5 0.5)) = true
  /\ extendToEdge (mkPoint 0.5 0.5) (mkPoint 0.5 0.5) false = mkPoint 0.5 0.
Proof. split; reflexivity. Qed.

(** An [x] that is NaN is outside the theorem: the fallback then carries
    the NaN through the clamp. *)
Example extendToEdge_nan :
  extendToEdge (mkPoint nan 0.5) (mkPoint 0.5 0.5) true = mkPoint nan 0.
Proof. reflexivity. Qed.

(** C4.  For the endpoint (0.5, 0.5) and the neighbour (0.5, 0.6) the
    direction has a zero x component and a negative y component, the only
    candidate built is the one on the top edge (the left and right ones
    are skipped), and [extendToEdge] returns exactly (0.5, 0), for either
    value of the flag. *)
Theorem extendToEdge_upward (isStart : bool) :
  let point := mkPoint 0.5 0.5 in
  let neighbor := mkPoint 0.5 0.6 in
  x point - x neighbor = 0
  /\ (y point - y neighbor <? 0) = true
  /\ candidatesOf point neighbor = [mkPoint 0.5 0]
  /\ extendToEdge point neighbor isStart = mkPoint 0.5 0.
Proof.
  repeat split; try reflexivity. destruct isStart; reflexivity.
Qed.

(** C10.  The flag has no effect: both of its values give the same
    direction [point - neighbor], hence the same point. *)
Theorem extendToEdge_flag_irrelevant (point neighbor : TearPoint) :
  extendToEdge point neighbor true = extendToEdge point neighbor false.
Proof. reflexivity. Qed.

End EdgeExtension.

(** ** Noise source *)

Module NoiseFacts.

Import Noise.
Local Open Scope Z_scope.

(** The states from which the recurrence never reaches 0. *)
Definition live (s : rng) : Prop := 0 < s /\ s mod modulus <> 0.

Lemma gcd_modulus_multiplier : Z.gcd modulus 16807 = 1.
Proof. reflexivity. Qed.

Lemma next_state_range (s : rng) :
  live s -> 0 < snd (next s) < modulus.
Proof.
  intros [Hpos Hmod]. unfold next, modulus in *. simpl.
  rewrite Z.add_0_r, Z.rem_mod_nonneg by lia.
  assert (Hrange : 0 <= (s * 16807) mod 2147483647 < 2147483647)
    by (apply Z.mod_pos_bound; lia).
  assert (Hnz : (s * 16807) mod 2147483647 <> 0).
  { intros Hz. apply Z.mod_divide in Hz; [| lia].
    rewrite Z.mul_comm in Hz.
    apply Z.gauss in Hz; [| exact gcd_modulus_multiplier].
    apply Hmod. apply Z.mod_divide; [lia | exact Hz]. }
  lia.
Qed.

Lemma next_live (s : rng) : live s -> live (snd (next s)).
Proof.
  intros Hs. pose proof (next_state_range s Hs) as Hr. split; [lia |].
  rewrite Z.mod_small; lia.
Qed.

Lemma next_value_range (s : rng) :
  live s -> (0 <= fst (next s))%Q /\ (fst (next s) < 1)%Q.
Proof.
  intros Hs. pose proof (next_state_range s Hs) as Hr.
  unfold next, modulus in *. simpl in *.
  unfold Qle, Qlt. simpl. lia.
Qed.

Lemma nth_value_range (n : nat) :
  forall s, live s -> (0 <= nth_value s n)%Q /\ (nth_value s n < 1)%Q.
Proof.
  induction n as [| n IH]; intros s Hs; simpl.
  - now apply next_value_range.
  - apply IH. now apply next_live.
Qed.

(** C9, as it stands, fails: seeded with 0 the state stays 0 and every
    call returns [-1 / 2147483646], exactly and as a double. *)
Lemma yields_seed_zero_negative :
  ~ (0 <= yields 0 0)%Q
  /\ (yields 0 0 == Qmake (-1) 2147483646)%Q
  /\ (Js.of_Q (yields 0 0) <? 0)%float = true
  /\ nth_state (seededRandom 0) 1 = 0.
Proof.
  repeat split; try reflexivity.
  intros H. unfold Qle in H. simpl in H. lia.
Qed.

(** A negative seed keeps the state negative ([%] has the sign of the
    dividend), and the values with it. *)
Example yields_negative_seed :
  (yields (-1) 0 < 0)%Q /\ (yields (-1) 1 < 0)%Q.
Proof. split; reflexivity. Qed.

(** C9, amended.  For every positive integer seed that is not a multiple
    of 2147483647 (and small enough for the first product to be exact in
    a double), every value the recurrence
    [s = (s * 16807) % 2147483647], [(s - 1) / 2147483646] yields is at
    least 0 and below 1. *)
Theorem yields_in_unit_interval (seed : Z) (n : nat) :
  0 < seed -> seed * 16807 < 2 ^ 53 -> seed mod modulus <> 0 ->
  (0 <= yields seed n)%Q /\ (yields seed n < 1)%Q.
Proof.
  intros Hpos _ Hmod. unfold yields, seededRandom.
  apply nth_value_range. split; assumption.
Qed.

Lemma yields_in_unit_interval_witness :
  (0 <= yields 42 3)%Q /\ (yields 42 3 < 1)%Q.
Proof.
  apply (yields_in_unit_interval 42 3); [lia | reflexivity | ].
  vm_compute. discriminate.
Defined.

(** The two ends of the range as doubles: state 1 gives 0 and state
    2147483646, the largest, gives a double below 1. *)
Example extreme_values :
  Js.of_Q (Qmake (1 - 1) 2147483646) = 0%float
  /\ Js.of_Q (Qmake (2147483646 - 1) 2147483646) = 0.9999999995343387%float
  /\ (0.9999999995343387 <? 1)%float = true.
Proof. repeat split. Qed.

(** The first values of the seeds the component uses, as doubles. *)
Example yields_42 :
  map (fun n => Js.of_Q (yields 42 n)) [0; 1; 2]%nat
  = [0.0003287070433876543; 0.5245871017916008; 0.7354235320681926]%float.
Proof. reflexivity. Qed.

End NoiseFacts.

(** ** Jagged edge generator *)

Module JaggedEdge.

Import Js Geometry FloatFacts.
Local Open Scope float_scope.

Lemma interiorPoints_length (p1 p2 : TearPoint) (jaggedness : number)
    (segments : Z) (count : nat) :
  forall i rng,
    length (interiorPoints p1 p2 jaggedness segments count i rng) = count.
Proof.
  induction count as [| k IH]; intros i rng; simpl; [reflexivity |].
  destruct (interiorPoint p1 p2 jaggedness segments i rng) as [p rng'].
  simpl. now rewrite IH.
Qed.

(** A finite double minus itself is [+0]. *)
Lemma sub_diag (a : number) : is_finite a = true -> a - a = 0.
Proof.
  unfold is_finite. intros Hf. apply negb_true_iff in Hf.
  apply orb_false_elim in Hf as [Hnan Hinf].
  rewrite <- (SF2Prim_Prim2SF (a - a)), FloatAxioms.sub_spec.
  apply not_nan_spec in Hnan.
  unfold is_infinity in Hinf.
  rewrite FloatAxioms.eqb_spec, FloatAxioms.abs_spec in Hinf.
  destruct (Prim2SF a) as [b | b | | b m e]; try congruence.
  - destruct b; reflexivity.
  - discriminate Hinf.
  - unfold SF64sub, SFsub. rewrite Z.sub_diag. reflexivity.
Qed.



(** *** Where the interior points are

    The loop threads the noise source through three calls a point; the
    lemmas below read the numbers off the stream by their index. *)











(** The zero-length edge of the witness, evaluated: three interior points
    that are [p] plus the micro-jitter alone. *)
Example generateJaggedEdge_zero_length :
  generateJaggedEdge (mkPoint 0.3 0.3) (mkPoint 0.3 0.3) 0.02 4 7
  = [mkPoint 0.3 0.3;
     mkPoint 0.3025245871017916 0.29873542353020555;
     mkPoint 0.30137622397055497 0.3001962858244742;
     mkPoint 0.3015123181077766 0.30153044904445336;
     mkPoint 0.3 0.3].
Proof. reflexivity. Qed.

(** *** Chaining (lines 311-324) *)

(** The three interior points of segment [i], from [p] to [q]. *)
Definition interiorOf (tearProgress : number) (i : Z) (p q : TearPoint)
    : list TearPoint :=
  interiorPoints p q (0.012 + tearProgress * 0.008) 4 3 1
    (Noise.seededRandom (i * 137 + 7)).

(** What follows the raw vertex [p] in the chained path: for each later
    raw vertex [q], the interior points of the segment that ends at [q]
    and then [q] itself, once. *)
Fixpoint chained (tearProgress : number) (i : Z) (p : TearPoint)
    (rest : list TearPoint) : list TearPoint :=
  match rest with
  | [] => []
  | q :: rest' =>
      interiorOf tearProgress i p q ++ [q]
        ++ chained tearProgress (i + 1) q rest'
  end.

Lemma generateJaggedEdge_4 (prog : number) (i : Z) (p q : TearPoint) :
  generateJaggedEdge p q (0.012 + prog * 0.008) 4 (i * 137 + 7)
  = p :: interiorOf prog i p q ++ [q].
Proof. reflexivity. Qed.

Lemma chainSegments_step (prog : number) (i : Z) (p q : TearPoint)
    (rest : list TearPoint) :
  chainSegments prog i (p :: q :: rest)
  = (if (i =? 0)%Z then p :: interiorOf prog i p q ++ [q]
     else interiorOf prog i p q ++ [q])
      ++ chainSegments prog (i + 1) (q :: rest).
Proof.
  change (chainSegments prog i (p :: q :: rest))
    with ((if (i =? 0)%Z
           then generateJaggedEdge p q (0.012 + prog * 0.008) 4 (i * 137 + 7)
           else tl (generateJaggedEdge p q (0.012 + prog * 0.008) 4
                      (i * 137 + 7)))
            ++ chainSegments prog (i + 1) (q :: rest)).
  rewrite generateJaggedEdge_4. destruct (i =? 0)%Z; reflexivity.
Qed.

Lemma chainSegments_later (prog : number) (rest : list TearPoint) :
  forall i p, (0 < i)%Z ->
    chainSegments prog i (p :: rest) = chained prog i p rest.
Proof.
  induction rest as [| q rest IH]; intros i p Hi; [reflexivity |].
  rewrite chainSegments_step. cbn [chained].
  replace (i =? 0)%Z with false by (symmetry; apply Z.eqb_neq; lia).
  rewrite IH by lia. now rewrite <- app_assoc.
Qed.

Lemma chainSegments_chained (prog : number) (p : TearPoint)
    (rest : list TearPoint) :
  rest <> [] -> chainSegments prog 0 (p :: rest) = p :: chained prog 0 p rest.
Proof.
  destruct rest as [| q rest]; [congruence |]. intros _.
  rewrite chainSegments_step. cbn [chained Z.eqb].
  rewrite chainSegments_later by lia.
  cbn [app]. now rewrite <- app_assoc.
Qed.

Lemma interiorOf_three (prog : number) (i : Z) (p q : TearPoint) :
  exists a b c, interiorOf prog i p q = [a; b; c].
Proof.
  pose proof (interiorPoints_length p q (0.012 + prog * 0.008) 4 3 1
                (Noise.seededRandom (i * 137 + 7))) as Hl.
  fold (interiorOf prog i p q) in Hl.
  destruct (interiorOf prog i p q) as [| a [| b [| c [| d l]]]];
    try discriminate.
  now exists a, b, c.
Qed.

Lemma chained_length (prog : number) (rest : list TearPoint) :
  forall i p, length (chained prog i p rest) = (4 * length rest)%nat.
Proof.
  induction rest as [| q rest IH]; intros i p; [reflexivity |].
  cbn [chained]. destruct (interiorOf_three prog i p q) as (a & b & c & ->).
  cbn [app length]. rewrite IH. lia.
Qed.



(** Two points are the same vertex. *)
Definition samePoint (p q : TearPoint) : bool :=
  (x p =? x q) && (y p =? y q).

(** No two neighbours of the path are the same vertex. *)
Fixpoint noRepeatedNeighbour (ps : list TearPoint) : bool :=
  match ps with
  | p :: (q :: _) as rest => negb (samePoint p q) && noRepeatedNeighbour rest
  | _ => true
  end.








Definition threeSegments : list TearPoint :=
  [mkPoint 0.1 0.5; mkPoint 0.4 0.45; mkPoint 0.7 0.55; mkPoint 0.9 0.5].


(** Keeping the first point of every edge would put each inner raw vertex
    twice in a row. *)
Example three_segments_no_duplicate :
  let jag := jaggedTearPoints [] (Some threeSegments) 0.5 in
  length jag = 13%nat
  /\ noRepeatedNeighbour jag = true
  /\ noRepeatedNeighbour
       (generateJaggedEdge (mkPoint 0.1 0.5) (mkPoint 0.4 0.45)
          (0.012 + 0.5 * 0.008) 4 7
        ++ generateJaggedEdge (mkPoint 0.4 0.45) (mkPoint 0.7 0.55)
             (0.012 + 0.5 * 0.008) 4 144) = false.
Proof. vm_compute. repeat split. Qed.

End JaggedEdge.

(** ** Gesture tracking state machine *)

Module TearFacts.

Import Js Geometry Tear.
Local Open Scope float_scope.

(** *** Release (pointer-up) *)

Lemma finishTear_revealed (lastPos : option TearPoint) (st : State) :
  isRevealed (finishTear lastPos st) = true
  /\ isDragging (finishTear lastPos st) = false
  /\ tearProgress (finishTear lastPos st) = tearProgress st
  /\ onRevealedCalls (finishTear lastPos st) = S (onRevealedCalls st).
Proof. repeat split. Qed.

(** C2.  Pointer-up before the reveal.  If progress is at least 0.85, or
    at least 0.6 with the last recorded point within 4% of an edge, the
    machine is [Revealed] afterwards.  Otherwise it is [Idle], the raw
    path is empty, progress is 0 and the completed tear is what it was
    (none is produced).  In particular progress 0.85 with no edge
    proximity commits, and progress 0.5 snaps back. *)
Theorem pointer_up_commits_or_snaps_back (st : State) :
  isRevealed st = false ->
  let st' := handleCoverPointerUp st in
  let commit :=
    geb (tearProgress st) 0.85
    || (geb (tearProgress st) 0.6 && nearEdgeOnRelease st) in
  (commit = true -> phase st' = Revealed)
  /\ (commit = false ->
      phase st' = Idle /\ tearPath st' = [] /\ tearProgress st' = 0
      /\ completedTear st' = completedTear st
      /\ onRevealedCalls st' = onRevealedCalls st)
  /\ (tearProgress st = 0.85 -> nearEdgeOnRelease st = false ->
      phase st' = Revealed)
  /\ (tearProgress st = 0.5 ->
      phase st' = Idle /\ tearPath st' = [] /\ tearProgress st' = 0
      /\ completedTear st' = completedTear st).
Proof.
  intros Hrev st' commit.
  assert (Hcommit : commit = true -> phase st' = Revealed).
  { intros Hc. unfold st', handleCoverPointerUp, phase.
    rewrite Hrev. fold commit in Hc. unfold commit in Hc.
    unfold commitsOnRelease. rewrite Hc. reflexivity. }
  assert (Hsnap : commit = false ->
            phase st' = Idle /\ tearPath st' = [] /\ tearProgress st' = 0
            /\ completedTear st' = completedTear st
            /\ onRevealedCalls st' = onRevealedCalls st).
  { intros Hc. unfold st', handleCoverPointerUp, phase.
    rewrite Hrev. unfold commit in Hc.
    unfold commitsOnRelease. rewrite Hc. cbn.
    repeat split. }
  split; [exact Hcommit |]. split; [exact Hsnap |]. split.
  - intros Hp Hnear. apply Hcommit. unfold commit. rewrite Hp. reflexivity.
  - intros Hp.
    destruct Hsnap as (H1 & H2 & H3 & H4 & _); [| now repeat split].
    unfold commit. rewrite Hp. reflexivity.
Qed.

(** A drag that stopped at progress 0.85 in the middle of the surface. *)
Definition heldAt (progress : number) : State :=
  mkState false true progress [mkPoint 0.2 0.2; mkPoint 0.6 0.6] None
    (Some (60, 80)) (Some (mkPoint 0.6 0.6)) 0 None.

Lemma pointer_up_commits_or_snaps_back_witness :
  let st := heldAt 0.85 in
  let st' := handleCoverPointerUp st in
  let commit :=
    geb (tearProgress st) 0.85
    || (geb (tearProgress st) 0.6 && nearEdgeOnRelease st) in
  (commit = true -> phase st' = Revealed)
  /\ (commit = false ->
      phase st' = Idle /\ tearPath st' = [] /\ tearProgress st' = 0
      /\ completedTear st' = completedTear st
      /\ onRevealedCalls st' = onRevealedCalls st)
  /\ (tearProgress st = 0.85 -> nearEdgeOnRelease st = false ->
      phase st' = Revealed)
  /\ (tearProgress st = 0.5 ->
      phase st' = Idle /\ tearPath st' = [] /\ tearProgress st' = 0
      /\ completedTear st' = completedTear st).
Proof.
  intros st.
  apply (pointer_up_commits_or_snaps_back st). reflexivity.
Defined.

(** The two releases of the specification, from pointer-down to
    pointer-up on a 300 by 400 cover (diagonal 500, required distance
    425): a drag of 361.25 pixels, exactly 85% of it, commits; a drag of
    212.5 pixels, 50%, snaps back. *)
Definition cover300x400 : Env :=
  mkEnv (Some (mkCover 0 0 300 400 300 400)) false.

Example drag_85_percent_commits :
  let st := run cover300x400 initial
              [PointerDown 20 20; PointerMove 236.75 309] in
  phase st = Dragging /\ tearProgress st = 0.85
  /\ nearEdgeOnRelease st = false
  /\ phase (handleCoverPointerUp st) = Revealed
  /\ completedTear (handleCoverPointerUp st)
     = Some [mkPoint 0.016666666666666663 0;
             mkPoint 0.066666666666666666 0.05;
             mkPoint 0.78916666666666668 0.7725;
             mkPoint 1 0.98333333333333328].
Proof. vm_compute. repeat split. Qed.

Example drag_50_percent_snaps_back :
  let st := run cover300x400 initial
              [PointerDown 20 20; PointerMove 147.5 190] in
  phase st = Dragging /\ tearProgress st = 0.5
  /\ handleCoverPointerUp st = initial.
Proof. vm_compute. repeat split. Qed.

(** Near an edge the lower threshold applies: progress 0.6 with the last
    point 4% from the right edge commits. *)
Example near_edge_commits :
  let st := mkState false true 0.6 [mkPoint 0.5 0.5; mkPoint 0.96 0.5] None
              (Some (150, 200)) (Some (mkPoint 0.96 0.5)) 0 None in
  nearEdgeOnRelease st = true /\ phase (handleCoverPointerUp st) = Revealed.
Proof. vm_compute. repeat split. Qed.

(** *** The cover that takes the events *)

(** The handlers of the latest render are those of the closure of the
    state. *)
Lemma handle_closureOf (env : Env) (st : State) (ev : Event) :
  handle env st ev = handleIn (closureOf st) env st ev.
Proof. destruct ev; reflexivity. Qed.

Lemma rendered_fields (before next : State) :
  isRevealed (rendered before next) = isRevealed next
  /\ isDragging (rendered before next) = isDragging next
  /\ tearProgress (rendered before next) = tearProgress next
  /\ tearPath (rendered before next) = tearPath next
  /\ completedTear (rendered before next) = completedTear next
  /\ dragStartRef (rendered before next) = dragStartRef next
  /\ lastPointRef (rendered before next) = lastPointRef next
  /\ onRevealedCalls (rendered before next) = onRevealedCalls next.
Proof.
  unfold rendered.
  destruct (coverView next); [| | destruct (isRevealed before)];
    repeat split.
Qed.

Ltac rendered_fields :=
  repeat match goal with
    | |- context [isRevealed (rendered ?a ?b)] =>
        replace (isRevealed (rendered a b)) with (isRevealed b)
          by (symmetry; apply rendered_fields)
    | |- context [isDragging (rendered ?a ?b)] =>
        replace (isDragging (rendered a b)) with (isDragging b)
          by (symmetry; apply rendered_fields)
    | |- context [tearProgress (rendered ?a ?b)] =>
        replace (tearProgress (rendered a b)) with (tearProgress b)
          by (symmetry; apply rendered_fields)
    | |- context [tearPath (rendered ?a ?b)] =>
        replace (tearPath (rendered a b)) with (tearPath b)
          by (symmetry; apply rendered_fields)
    | |- context [completedTear (rendered ?a ?b)] =>
        replace (completedTear (rendered a b)) with (completedTear b)
          by (symmetry; apply rendered_fields)
    | |- context [dragStartRef (rendered ?a ?b)] =>
        replace (dragStartRef (rendered a b)) with (dragStartRef b)
          by (symmetry; apply rendered_fields)
    | |- context [lastPointRef (rendered ?a ?b)] =>
        replace (lastPointRef (rendered a b)) with (lastPointRef b)
          by (symmetry; apply rendered_fields)
    | |- context [onRevealedCalls (rendered ?a ?b)] =>
        replace (onRevealedCalls (rendered a b)) with (onRevealedCalls b)
          by (symmetry; apply rendered_fields)
    end.

(** Before the reveal the cover is in the tree: the event goes to the
    handlers of the latest render. *)
Lemma step_covered (env : Env) (st : State) (ev : Event) :
  isRevealed st = false ->
  step env st ev
  = match ev with
    | ExitComplete => withExitingCover None st
    | _ => rendered st (handle env st ev)
    end.
Proof. intros Hrev. destruct ev; unfold step; now rewrite ?Hrev. Qed.

(** Once the cover is gone, nothing takes events. *)
Lemma step_unmounted (env : Env) (st : State) (ev : Event) :
  isRevealed st = true -> exitingCover st = None -> step env st ev = st.
Proof.
  intros Hrev Hgone. destruct ev; unfold step; rewrite ?Hrev, ?Hgone;
    try reflexivity.
  unfold withExitingCover. rewrite <- Hgone. now destruct st.
Qed.

Lemma run_unmounted (env : Env) (evs : list Event) :
  forall st, isRevealed st = true -> exitingCover st = None ->
  run env st evs = st.
Proof.
  unfold run. induction evs as [| ev evs IH]; intros st Hrev Hgone;
    [reflexivity |].
  cbn [fold_left]. rewrite step_unmounted by assumption. now apply IH.
Qed.

(** What an event handled by an exiting cover does to the reveal flag and
    to the number of [onRevealed] calls: the flag stays set, and the
    handlers can call [onRevealed] again. *)
Lemma handleIn_revealed (seen : Closure) (env : Env) (st : State)
    (ev : Event) :
  isRevealed st = true ->
  isRevealed (handleIn seen env st ev) = true
  /\ (onRevealedCalls st <= onRevealedCalls (handleIn seen env st ev))%nat.
Proof.
  intros Hrev. destruct ev as [cx cy | cx cy | | |]; unfold handleIn.
  - unfold handleCoverPointerDownIn.
    destruct (seenRevealed seen); [now split |].
    destruct (getNormalizedPos env cx cy); now split.
  - unfold handleCoverPointerMoveIn.
    destruct (dragStartRef st) as [[sx sy] |]; [| now split].
    destruct (negb (seenDragging seen) || seenRevealed seen); [now split |].
    destruct (getNormalizedPos env cx cy) as [pos |]; [| now split].
    destruct (lastPointRef st) as [lastPoint |]; [| now split].
    cbv zeta. destruct (geb _ 1 || _).
    + split; [reflexivity |]. cbn [finishTear onRevealedCalls]. lia.
    + now split.
  - unfold handleCoverPointerUpIn.
    destruct (seenRevealed seen); [now split |].
    destruct (commitsOnReleaseIn seen st).
    + split; [reflexivity |]. cbn [finishTear onRevealedCalls]. lia.
    + now split.
  - unfold handleTapOpenIn.
    destruct (seenRevealed seen || seenDragging seen); [now split |].
    destruct (negb (isMobileRef env)); [now split |].
    split; [reflexivity |]. cbn [onRevealedCalls]. lia.
  - now split.
Qed.

(** What one event does, before the reveal, to the reveal flag and to the
    number of [onRevealed] calls. *)
Inductive notified (st st' : State) : Prop :=
| still_covered :
    isRevealed st' = false ->
    onRevealedCalls st' = onRevealedCalls st ->
    completedTear st' = completedTear st -> notified st st'
| just_revealed :
    isRevealed st' = true ->
    onRevealedCalls st' = S (onRevealedCalls st) -> notified st st'.

Lemma handle_notified (env : Env) (st : State) (ev : Event) :
  isRevealed st = false -> notified st (handle env st ev).
Proof.
  intros Hrev.
  assert (Hsame : notified st st) by (now apply still_covered).
  destruct ev as [cx cy | cx cy | | |]; unfold handle.
  - unfold handleCoverPointerDown. rewrite Hrev.
    destruct (getNormalizedPos env cx cy); [| exact Hsame].
    now apply still_covered.
  - unfold handleCoverPointerMove.
    destruct (dragStartRef st) as [[sx sy] |]; [| exact Hsame].
    destruct (negb (isDragging st) || isRevealed st); [exact Hsame |].
    destruct (getNormalizedPos env cx cy) as [pos |]; [| exact Hsame].
    destruct (lastPointRef st) as [lastPoint |]; [| exact Hsame].
    cbv zeta.
    destruct (geb _ 1 || _).
    + now apply just_revealed.
    + now apply still_covered.
  - unfold handleCoverPointerUp. rewrite Hrev.
    destruct (commitsOnRelease st).
    + now apply just_revealed.
    + now apply still_covered.
  - unfold handleTapOpen. rewrite Hrev. cbn [orb].
    destruct (isDragging st); [exact Hsame |].
    destruct (isMobileRef env); cbn [negb]; [| exact Hsame].
    now apply just_revealed.
  - exact Hsame.
Qed.

Lemma step_notified (env : Env) (st : State) (ev : Event) :
  isRevealed st = false -> notified st (step env st ev).
Proof.
  intros Hrev. rewrite step_covered by exact Hrev.
  destruct (handle_notified env st ev Hrev) as [Hr Hc Ht | Hr Hc];
    destruct ev;
    try (apply still_covered; rendered_fields; assumption);
    try (apply just_revealed; rendered_fields; assumption).
Qed.

(** The reveal flag is never cleared, and the count of [onRevealed] calls
    never goes down. *)
Lemma step_keeps_revealed (env : Env) (st : State) (ev : Event) :
  isRevealed st = true ->
  isRevealed (step env st ev) = true
  /\ (onRevealedCalls st <= onRevealedCalls (step env st ev))%nat.
Proof.
  intros Hrev.
  destruct (exitingCover st) as [seen |] eqn:Hseen.
  - pose proof (handleIn_revealed seen env st ev Hrev) as [Hr Hc].
    destruct ev; unfold step; rewrite ?Hrev, ?Hseen; rendered_fields;
      try (split; assumption).
  - rewrite step_unmounted by assumption. split; [exact Hrev | lia].
Qed.

Lemma step_calls (env : Env) (st : State) (ev : Event) :
  (onRevealedCalls st <= onRevealedCalls (step env st ev))%nat.
Proof.
  destruct (isRevealed st) eqn:Hrev.
  - now apply step_keeps_revealed.
  - destruct (step_notified env st ev Hrev) as [_ Hc _ | _ Hc]; lia.
Qed.

(** Before the reveal there is no completed tear. *)
Lemma covered_no_completedTear (env : Env) (evs : list Event) :
  forall st,
    (isRevealed st = false -> completedTear st = None) ->
    isRevealed (run env st evs) = false ->
    completedTear (run env st evs) = None.
Proof.
  unfold run. induction evs as [| ev evs IH]; intros st Hst; simpl;
    [exact Hst |].
  apply IH. intros Hcov.
  destruct (isRevealed st) eqn:Hrev.
  - destruct (step_keeps_revealed env st ev Hrev) as [Hr _]. congruence.
  - destruct (step_notified env st ev Hrev) as [_ _ Hc | Hr _];
      [rewrite Hc; now apply Hst | congruence].
Qed.

(** *** [Revealed] is not terminal while the cover fades out *)

(** A press 3 pixels from the left edge of a 300 by 400 cover, a drag out
    of the cover to the left, a release: the letter is revealed with a
    path of one point, so no completed tear, nothing is rendered in the
    place of the cover and the cover fades out with the handlers of the
    drag (not revealed, dragging, progress 283 / 425). *)
Definition revealedWithoutTear : State :=
  run cover300x400 initial
    [PointerDown 3 200; PointerMove (-280) 200; PointerUp].

(** C5.  [Revealed] is not terminal and [onRevealed] is not called once
    only.  In [revealedWithoutTear] the letter is revealed and
    [onRevealed] has been called once.  A second press and release at the
    same place, before the exit animation of the cover ends, go to the
    handlers the cover has kept: the press records a point and sets
    [isDragging], the release passes the test of line 271 with the
    progress of the first drag and calls [finishTear], hence [onRevealed],
    a second time.  A press and release in the middle of the cover empty
    the path and reset the progress of the revealed letter to 0.  After
    the exit animation the same events change nothing. *)
Theorem revealed_not_terminal :
  let st := revealedWithoutTear in
  phase st = Revealed /\ onRevealedCalls st = 1%nat
  /\ completedTear st = None /\ coverView st = NoCover
  /\ exitingCover st = Some (mkClosure false true 0.66588235294117648)
  /\ tearPath st = [mkPoint 0.01 0.5]
  /\ (let st' := run cover300x400 st [PointerDown 3 200; PointerUp] in
      phase st' = Revealed /\ onRevealedCalls st' = 2%nat)
  /\ (let st' := step cover300x400 st (PointerDown 40 40) in
      phase st' = Revealed /\ isDragging st' = true
      /\ tearPath st' = [mkPoint 0.13333333333333333 0.1])
  /\ (let st' := run cover300x400 st [PointerDown 40 40; PointerUp] in
      phase st' = Revealed /\ onRevealedCalls st' = 1%nat
      /\ tearPath st' = [] /\ tearProgress st' = 0)
  /\ run cover300x400 st [ExitComplete; PointerDown 3 200; PointerUp]
     = step cover300x400 st ExitComplete.
Proof. vm_compute. repeat split. Qed.

(** Once the torn pieces are rendered (a completed tear), or the exit
    animation has ended, no event changes the state. *)
Lemma revealed_terminal_when_unmounted (env : Env) (st : State) :
  phase st = Revealed -> exitingCover st = None ->
  (forall ev, step env st ev = st) /\ (forall evs, run env st evs = st).
Proof.
  intros Hphase Hgone.
  assert (Hrev : isRevealed st = true).
  { unfold phase in Hphase. destruct (isRevealed st); [reflexivity |].
    destruct (isDragging st); discriminate. }
  split; [intros ev; now apply step_unmounted |].
  intros evs. now apply run_unmounted.
Qed.

(** The three ways in: a release past the threshold, a move that
    completes the drag, a tap on a touch device.  Each calls [onRevealed]
    once; each leaves a completed tear, so the pieces replace the cover
    and the events that follow change nothing. *)
Definition touchCover : Env :=
  mkEnv (Some (mkCover 0 0 300 400 300 400)) true.

Example revealed_by_release :
  let st := run cover300x400 initial
              [PointerDown 20 20; PointerMove 236.75 309; PointerUp] in
  phase st = Revealed /\ onRevealedCalls st = 1%nat
  /\ coverView st = TornPieces
  /\ run cover300x400 st
       [Click; PointerDown 40 40; PointerMove 200 200; PointerUp; Click]
     = st.
Proof. vm_compute. repeat split. Qed.

Example revealed_by_move :
  let st := run cover300x400 initial
              [PointerDown 10 10; PointerMove 150 200; PointerMove 290 390] in
  phase st = Revealed /\ onRevealedCalls st = 1%nat
  /\ tearProgress st = 1
  /\ run cover300x400 st [PointerMove 295 395; PointerUp; Click] = st.
Proof. vm_compute. repeat split. Qed.

Example revealed_by_tap :
  let st := run touchCover initial [PointerDown 150 200; PointerUp; Click] in
  phase st = Revealed /\ onRevealedCalls st = 1%nat
  /\ tearProgress st = 1
  /\ length (tearPath st) = 21%nat
  /\ run touchCover st [Click; PointerDown 150 200; PointerUp; Click] = st.
Proof. vm_compute. repeat split. Qed.

(** Without touch support the tap does nothing. *)
Example tap_without_touch :
  run cover300x400 initial [PointerDown 150 200; PointerUp; Click] = initial.
Proof. vm_compute. reflexivity. Qed.

End TearFacts.

(** ** Drag progress *)

Module ProgressFacts.

Import Js Geometry Tear Progress FloatFacts FloatOrder TearFacts.
Local Open Scope float_scope.

(** The ratio of the specification: the straight-line distance from the
    drag start to the pointer, over 85% of the diagonal of the surface
    (of 700 when there is no element), computed on doubles. *)
Definition dragRatio (env : Env) (startX startY clientX clientY : number)
    : number :=
  let distance :=
    Math_sqrt ((clientX - startX) * (clientX - startX)
               + (clientY - startY) * (clientY - startY)) in
  let diagonal :=
    match coverRef env with
    | Some el =>
        Math_sqrt (offsetWidth el * offsetWidth el
                   + offsetHeight el * offsetHeight el)
    | None => 700
    end in
  distance / (diagonal * 0.85).


(** The exact value of a finite double, and the exact square of the
    distance between two positions given by doubles. *)
Definition exact (v : number) : Q :=
  match Prim2SF v with
  | S754_finite s m e =>
      ((if s then -1 else 1) * inject_Z (Zpos m) * Qpower (2 # 1) e)%Q
  | _ => 0%Q
  end.




(** On doubles, whatever the surface and the two positions: the ratio is
    a quotient of square roots of sums of squares, so its sign bit is
    clear, and the progress is in the unit interval whenever it is a
    number (it is NaN for 0 / 0, a surface of size 0 and no movement). *)
Lemma floatProgress_unit (el : option (number * number))
    (startX startY clientX clientY : number) :
  let progress := dragProgress el startX startY clientX clientY in
  is_nan progress = false -> in_unit progress.
Proof.
  unfold dragProgress, totalDist, requiredDist, coverDiagonal.
  apply Math_min_unsigned_1.
  apply div_unsigned.
  - apply sqrt_unsigned, add_unsigned; apply square_unsigned.
  - apply mul_unsigned; [| reflexivity].
    destruct el as [[w h] |]; [| reflexivity].
    apply sqrt_unsigned, add_unsigned; apply square_unsigned.
Qed.





(** On a 300 by 400 cover (diagonal 500, required distance 425): 212.5
    pixels from the start is progress 0.5, 361.25 pixels is 0.85, and 500
    pixels is capped at 1. *)
Example progress_values :
  dragProgress (Some (300, 400)) 20 20 147.5 190 = 0.5
  /\ dragProgress (Some (300, 400)) 20 20 236.75 309 = 0.85
  /\ dragProgress (Some (300, 400)) 0 0 300 400 = 1
  /\ dragRatio cover300x400 0 0 300 400 = 1.1764705882352942.
Proof. vm_compute. repeat split. Qed.

End ProgressFacts.

(** ** Clip geometry builder *)

Module ClipFacts.

Import Js Geometry.
Local Open Scope Z_scope.

(** *** Area and winding of a polygon on the grid of tenths of a percent

    The surface is the square from (0, 0) to (1000, 1000).  The area and
    the winding number of a polygon are both sums of one weight per edge,
    and both weights change sign when the edge is walked backwards. *)

Definition closed (poly : list Vertex) : list Vertex :=
  match poly with
  | [] => []
  | v :: _ => poly ++ [v]
  end.

Section EdgeSums.

Variable weight : Vertex -> Vertex -> Z.
Hypothesis weight_antisym : forall a b, weight b a = - weight a b.

(** The sum of the weights of the edges of an open path. *)
Fixpoint pathTotal (vs : list Vertex) : Z :=
  match vs with
  | a :: (b :: _) as rest => weight a b + pathTotal rest
  | _ => 0
  end.

Lemma pathTotal_cons2 (a b : Vertex) (l : list Vertex) :
  pathTotal (a :: b :: l) = weight a b + pathTotal (b :: l).
Proof. reflexivity. Qed.

(** A path through [v] is the path up to [v] and the path from [v]. *)
Lemma pathTotal_app (l1 l2 : list Vertex) (v : Vertex) :
  pathTotal (l1 ++ v :: l2) = pathTotal (l1 ++ [v]) + pathTotal (v :: l2).
Proof.
  induction l1 as [| a l1 IH]; [reflexivity |].
  destruct l1 as [| b l1].
  - cbn [app]. rewrite pathTotal_cons2. cbn [pathTotal]. lia.
  - change ((a :: b :: l1) ++ v :: l2) with (a :: b :: (l1 ++ v :: l2)).
    change ((a :: b :: l1) ++ [v]) with (a :: b :: (l1 ++ [v])).
    rewrite !pathTotal_cons2.
    change (b :: l1 ++ v :: l2) with ((b :: l1) ++ v :: l2).
    change (b :: l1 ++ [v]) with ((b :: l1) ++ [v]).
    rewrite IH. lia.
Qed.

(** Walking a path backwards negates its total. *)
Lemma pathTotal_rev (l : list Vertex) : pathTotal (rev l) = - pathTotal l.
Proof.
  induction l as [| a l IH]; [reflexivity |].
  destruct l as [| b l]; [reflexivity |].
  change (rev (a :: b :: l)) with (rev (b :: l) ++ [a]).
  rewrite pathTotal_cons2.
  change (rev (b :: l)) with (rev l ++ [b]) in *.
  rewrite <- app_assoc. cbn [app].
  rewrite pathTotal_app, IH. cbn [pathTotal].
  rewrite (weight_antisym a b). lia.
Qed.

Lemma pathTotal_through (a b : Vertex) (l rest : list Vertex) :
  pathTotal (a :: l ++ b :: rest)
  = pathTotal (a :: l ++ [b]) + pathTotal (b :: rest).
Proof. exact (pathTotal_app (a :: l) rest b). Qed.

Lemma pathTotal_back (a b : Vertex) (l : list Vertex) :
  pathTotal (b :: rev l ++ [a]) = - pathTotal (a :: l ++ [b]).
Proof.
  rewrite <- pathTotal_rev. f_equal.
  cbn [rev]. rewrite rev_app_distr. reflexivity.
Qed.

(** The top and bottom polygons around a printed tear line, with the
    heights [fy] and [ly] at which it is joined to the left and right
    sides. *)
Definition topAround (fy ly : Z) (tear : list Vertex) : list Vertex :=
  [(0, 0); (1000, 0); (1000, ly)] ++ rev tear ++ [(0, fy)].

Definition bottomAround (fy ly : Z) (tear : list Vertex) : list Vertex :=
  [(0, fy)] ++ tear ++ [(1000, ly); (1000, 1000); (0, 1000)].

Lemma closed_topAround (fy ly : Z) (tear : list Vertex) :
  closed (topAround fy ly tear)
  = (0, 0) :: (1000, 0) :: (1000, ly) :: rev tear ++ (0, fy) :: [(0, 0)].
Proof.
  unfold topAround, closed. cbn [app]. now rewrite <- app_assoc.
Qed.

Lemma closed_bottomAround (fy ly : Z) (tear : list Vertex) :
  closed (bottomAround fy ly tear)
  = (0, fy) :: tear
      ++ (1000, ly) :: [(1000, 1000); (0, 1000); (0, fy)].
Proof.
  unfold bottomAround, closed. cbn [app]. now rewrite <- app_assoc.
Qed.

(** The tear line is walked once in each direction, so what is left of
    the two totals is the boundary of the surface, cut at the two joins. *)
Lemma pathTotal_around (fy ly : Z) (tear : list Vertex) :
  pathTotal (closed (topAround fy ly tear))
  + pathTotal (closed (bottomAround fy ly tear))
  = weight (0, 0) (1000, 0) + weight (1000, 0) (1000, ly)
    + weight (1000, ly) (1000, 1000) + weight (1000, 1000) (0, 1000)
    + weight (0, 1000) (0, fy) + weight (0, fy) (0, 0).
Proof.
  rewrite closed_topAround, closed_bottomAround.
  rewrite !pathTotal_cons2.
  rewrite (pathTotal_through (1000, ly) (0, fy) (rev tear) [(0, 0)]).
  rewrite (pathTotal_through (0, fy) (1000, ly) tear
             [(1000, 1000); (0, 1000); (0, fy)]).
  rewrite pathTotal_back.
  cbn [pathTotal]. lia.
Qed.

End EdgeSums.

Definition cross (a b : Vertex) : Z := fst a * snd b - fst b * snd a.

(** The shoelace sum along an open path. *)
Definition pathSum (vs : list Vertex) : Z := pathTotal cross vs.

(** Twice the signed area of the polygon; the whole surface has
    [2 * 1000 * 1000]. *)
Definition signedArea2 (poly : list Vertex) : Z := pathSum (closed poly).

Definition area2 (poly : list Vertex) : Z := Z.abs (signedArea2 poly).

Definition surfaceArea2 : Z := 2 * 1000 * 1000.

(** Positive when [p] is to the left of the line from [a] to [b]. *)
Definition isLeft (a b p : Vertex) : Z :=
  (fst b - fst a) * (snd p - snd a) - (fst p - fst a) * (snd b - snd a).

(** The contribution of the edge from [a] to [b] to the winding number
    around [p]: an upward crossing with [p] on the left counts 1, a
    downward crossing with [p] on the right counts -1. *)
Definition edgeWinding (p a b : Vertex) : Z :=
  if snd a <=? snd p
  then (if (snd p <? snd b) && (0 <? isLeft a b p) then 1 else 0)
  else (if (snd b <=? snd p) && (isLeft a b p <? 0) then -1 else 0).

Definition pathWinding (p : Vertex) (vs : list Vertex) : Z :=
  pathTotal (edgeWinding p) vs.

Definition winding (p : Vertex) (poly : list Vertex) : Z :=
  pathWinding p (closed poly).

Definition onEdge (p a b : Vertex) : bool :=
  (isLeft a b p =? 0)
  && (Z.min (fst a) (fst b) <=? fst p) && (fst p <=? Z.max (fst a) (fst b))
  && (Z.min (snd a) (snd b) <=? snd p) && (snd p <=? Z.max (snd a) (snd b)).

Fixpoint onPath (p : Vertex) (vs : list Vertex) : bool :=
  match vs with
  | a :: (b :: _) as rest => onEdge p a b || onPath p rest
  | _ => false
  end.

(** [p] is in the interior of the region a [polygon()] clips to (the
    default fill rule, nonzero): off the boundary, winding number not 0. *)
Definition strictlyInside (p : Vertex) (poly : list Vertex) : bool :=
  negb (onPath p (closed poly)) && negb (winding p poly =? 0).

(** The two pieces tile the surface: their areas add up to the area of
    the surface and no point is in the interior of both. *)
Definition tileComplete (top bottom : list Vertex) : Prop :=
  area2 top + area2 bottom = surfaceArea2
  /\ forall p, strictlyInside p top && strictlyInside p bottom = false.

(** [p] is inside the surface, off its four sides. *)
Definition insideSurface (p : Vertex) : Prop :=
  0 < fst p < 1000 /\ 0 < snd p < 1000.

Lemma cross_antisym (a b : Vertex) : cross b a = - cross a b.
Proof. unfold cross. lia. Qed.

Lemma isLeft_antisym (a b p : Vertex) : isLeft b a p = - isLeft a b p.
Proof. unfold isLeft. ring. Qed.

Ltac split_comparisons :=
  repeat match goal with
    | |- context [(?u <=? ?v)] => destruct (Z.leb_spec u v)
    | |- context [(?u <? ?v)] => destruct (Z.ltb_spec u v)
    end.

Lemma edgeWinding_antisym (p a b : Vertex) :
  edgeWinding p b a = - edgeWinding p a b.
Proof.
  unfold edgeWinding. rewrite (isLeft_antisym a b p).
  generalize (isLeft a b p). intros L.
  split_comparisons; cbn [andb]; lia.
Qed.

(** The signed areas of the two pieces add up to the area of the
    surface. *)
Lemma signedArea2_around (fy ly : Z) (tear : list Vertex) :
  signedArea2 (topAround fy ly tear) + signedArea2 (bottomAround fy ly tear)
  = surfaceArea2.
Proof.
  unfold signedArea2, pathSum.
  rewrite (pathTotal_around cross cross_antisym).
  unfold cross, surfaceArea2. cbn [fst snd]. lia.
Qed.

(** Around a point inside the surface the winding numbers of the two
    pieces add up to 1, the winding number of the surface. *)
Lemma winding_around (fy ly : Z) (tear : list Vertex) (p : Vertex) :
  insideSurface p ->
  winding p (topAround fy ly tear) + winding p (bottomAround fy ly tear) = 1.
Proof.
  destruct p as [px py]. unfold insideSurface. cbn [fst snd].
  intros [Hx Hy]. unfold winding, pathWinding.
  rewrite (pathTotal_around (edgeWinding (px, py))
             (edgeWinding_antisym (px, py))).
  unfold edgeWinding, isLeft. cbn [fst snd].
  split_comparisons; cbn [andb]; nia.
Qed.

(** *** Printing a path *)

Lemma printPath_app (l1 l2 : list TearPoint) :
  printPath (l1 ++ l2)
  = match printPath l1, printPath l2 with
    | Some a, Some b => Some (a ++ b)
    | _, _ => None
    end.
Proof.
  induction l1 as [| p l1 IH]; cbn [app printPath].
  - now destruct (printPath l2).
  - rewrite IH. destruct (printVertex p); [| reflexivity].
    destruct (printPath l1); [| reflexivity].
    now destruct (printPath l2).
Qed.

Lemma printPath_rev (l : list TearPoint) (vs : list Vertex) :
  printPath (rev l) = Some vs -> printPath l = Some (rev vs).
Proof.
  revert vs. induction l as [| p l IH]; intros vs; cbn [rev printPath].
  - intros [= <-]. reflexivity.
  - rewrite printPath_app. cbn [printPath].
    destruct (printPath (rev l)) as [ws |]; [| discriminate].
    destruct (printVertex p) as [v |]; [| discriminate].
    intros [= <-]. rewrite (IH ws eq_refl), rev_app_distr. reflexivity.
Qed.

(** *** The two pieces *)

Lemma clips_around (jagged : list TearPoint) (top bottom : list Vertex) :
  (2 <= length jagged)%nat ->
  topClip jagged = Polygon top -> bottomClip jagged = Polygon bottom ->
  exists fy ly tear,
    printPath jagged = Some tear
    /\ percent (y (nth 0 jagged undefinedPoint)) = Some fy
    /\ percent (y (nth (length jagged - 1) jagged undefinedPoint)) = Some ly
    /\ top = topAround fy ly tear
    /\ bottom = bottomAround fy ly tear.
Proof.
  intros Hlen. unfold topClip, bottomClip.
  replace (length jagged <? 2)%nat with false
    by (symmetry; apply Nat.ltb_ge; exact Hlen).
  destruct (percent (y (nth (length jagged - 1) jagged undefinedPoint)))
    as [ly |]; [| discriminate].
  destruct (printPath (rev jagged)) as [tr |] eqn:Hrev; [| discriminate].
  destruct (percent (y (nth 0 jagged undefinedPoint))) as [fy |];
    [| discriminate].
  rewrite (printPath_rev jagged tr Hrev).
  cbn [polygonOf]. intros [= <-] [= <-].
  exists fy, ly, (rev tr). unfold topAround, bottomAround.
  rewrite rev_involutive. repeat split.
Qed.

(** Whatever the direction of the tear: for every jagged path of at
    least two points whose two clip paths are polygons, both polygons are
    built around the same
    printed tear vertices (the top one walks them in reverse), joined to
    the sides at the same two heights; their signed (shoelace) areas add up
    to exactly the area of the surface; and around every point inside the
    surface their winding numbers add up to 1, so a point off the two
    boundaries is in the interior of at least one piece: there is no
    gap. *)
Theorem clips_share_tear_and_area
    (jagged : list TearPoint) (top bottom : list Vertex) :
  (2 <= length jagged)%nat ->
  topClip jagged = Polygon top -> bottomClip jagged = Polygon bottom ->
  (exists fy ly tear,
      printPath jagged = Some tear
      /\ top = [(0, 0); (1000, 0); (1000, ly)] ++ rev tear ++ [(0, fy)]
      /\ bottom
         = [(0, fy)] ++ tear ++ [(1000, ly); (1000, 1000); (0, 1000)])
  /\ signedArea2 top + signedArea2 bottom = surfaceArea2
  /\ (forall p, insideSurface p ->
        winding p top + winding p bottom = 1
        /\ (onPath p (closed top) = false ->
            onPath p (closed bottom) = false ->
            strictlyInside p top || strictlyInside p bottom = true)).
Proof.
  intros Hlen Htop Hbottom.
  destruct (clips_around jagged top bottom Hlen Htop Hbottom)
    as (fy & ly & tear & Hprint & _ & _ & -> & ->).
  split; [| split].
  - exists fy, ly, tear. repeat split. exact Hprint.
  - apply signedArea2_around.
  - intros p Hp.
    pose proof (winding_around fy ly tear p Hp) as Hw.
    split; [exact Hw |].
    intros Hoff1 Hoff2. unfold strictlyInside. rewrite Hoff1, Hoff2.
    cbn [negb andb].
    destruct (Z.eqb_spec (winding p (topAround fy ly tear)) 0) as [E1 | E1];
      [| reflexivity].
    destruct (Z.eqb_spec (winding p (bottomAround fy ly tear)) 0)
      as [E2 | E2]; [lia | reflexivity].
Qed.

Definition verticesOf (c : ClipPath) : list Vertex :=
  match c with Polygon vs => vs | _ => [] end.

(** A tear across the middle from the left edge to the right edge. *)
Definition acrossTheMiddle : list TearPoint :=
  jaggedTearPoints []
    (Some [mkPoint 0 0.5; mkPoint 0.3 0.45; mkPoint 0.7 0.55;
           mkPoint 1 0.5]%float)
    1%float.

Lemma clips_share_tear_and_area_witness :
  let top := verticesOf (topClip acrossTheMiddle) in
  let bottom := verticesOf (bottomClip acrossTheMiddle) in
  (exists fy ly tear,
      printPath acrossTheMiddle = Some tear
      /\ top = [(0, 0); (1000, 0); (1000, ly)] ++ rev tear ++ [(0, fy)]
      /\ bottom
         = [(0, fy)] ++ tear ++ [(1000, ly); (1000, 1000); (0, 1000)])
  /\ signedArea2 top + signedArea2 bottom = surfaceArea2
  /\ (forall p, insideSurface p ->
        winding p top + winding p bottom = 1
        /\ (onPath p (closed top) = false ->
            onPath p (closed bottom) = false ->
            strictlyInside p top || strictlyInside p bottom = true)).
Proof.
  intros top bottom.
  apply (clips_share_tear_and_area acrossTheMiddle top bottom).
  - vm_compute. lia.
  - vm_compute. reflexivity.
  - vm_compute. reflexivity.
Defined.

(** There the two pieces are the two halves: both areas positive, and a
    point above the tear in the top piece only, one below in the bottom
    piece only. *)
Example acrossTheMiddle_halves :
  let top := verticesOf (topClip acrossTheMiddle) in
  let bottom := verticesOf (bottomClip acrossTheMiddle) in
  area2 top + area2 bottom = surfaceArea2
  /\ strictlyInside (500, 200) top = true
  /\ strictlyInside (500, 200) bottom = false
  /\ strictlyInside (500, 800) top = false
  /\ strictlyInside (500, 800) bottom = true.
Proof. vm_compute. repeat split. Qed.

(** *** A flap torn from the top edge, right to left

    On a 600 by 400 cover: down near the top right corner, down the right
    side, across, up the left side, released 14 pixels from the top.  The
    release commits (progress 0.78, last point within 4% of the top edge)
    and both ends are extended to the top edge: the tear runs from
    (0.9, 0) to (0.1, 0). *)
Definition cover600x400 : Tear.Env :=
  Tear.mkEnv (Some (Tear.mkCover 0 0 600 400 600 400)%float) false.

Definition flapTear : Tear.State :=
  Tear.run cover600x400 Tear.initial
    [Tear.PointerDown 540 40; Tear.PointerMove 540 120;
     Tear.PointerMove 540 200; Tear.PointerMove 300 240;
     Tear.PointerMove 60 200; Tear.PointerMove 60 120;
     Tear.PointerMove 60 14; Tear.PointerUp]%float.

Example flapTear_completed :
  Tear.phase flapTear = Tear.Revealed
  /\ Tear.completedTear flapTear
     = Some [mkPoint 0.9 0; mkPoint 0.9 0.1; mkPoint 0.9 0.3;
             mkPoint 0.9 0.5; mkPoint 0.5 0.6; mkPoint 0.1 0.5;
             mkPoint 0.1 0.3; mkPoint 0.1 0.035; mkPoint 0.1 0]%float.
Proof. vm_compute. repeat split. Qed.

(** The same flap with straight sides, small enough to check by hand:
    the top polygon is (0,0) (100,0) (100,0) (10,0) (10,50) (90,50) (90,0)
    (0,0) in percent, the rectangle of the flap walked against the
    orientation of the surface; the bottom polygon walks the surface and
    then the flap again. *)
Definition squareFlap : list TearPoint :=
  [mkPoint 0.9 0; mkPoint 0.9 0.5; mkPoint 0.1 0.5; mkPoint 0.1 0]%float.

Example squareFlap_clips :
  topClip squareFlap
  = Polygon [(0, 0); (1000, 0); (1000, 0); (100, 0); (100, 500); (900, 500);
             (900, 0); (0, 0)]
  /\ bottomClip squareFlap
     = Polygon [(0, 0); (900, 0); (900, 500); (100, 500); (100, 0);
                (1000, 0); (1000, 1000); (0, 1000)].
Proof. vm_compute. split; reflexivity. Qed.

(** The same flap torn the other way, from the top left to the top
    right, and its straight-sided version. *)
Definition flapTearLeftToRight : Tear.State :=
  Tear.run cover600x400 Tear.initial
    [Tear.PointerDown 60 40; Tear.PointerMove 60 120;
     Tear.PointerMove 60 200; Tear.PointerMove 300 240;
     Tear.PointerMove 540 200; Tear.PointerMove 540 120;
     Tear.PointerMove 540 14; Tear.PointerUp]%float.

Definition squareFlapLeftToRight : list TearPoint :=
  [mkPoint 0.1 0; mkPoint 0.1 0.5; mkPoint 0.9 0.5; mkPoint 0.9 0]%float.

(** C1.  The builder walks the corners as if every tear ran from the left
    to the right, and tiles the surface only then.  For the flap torn
    from right to left, straight-sided or jagged, the top polygon is the
    flap walked backwards (signed area negative) and the bottom polygon
    winds twice around it: the point (50%, 25%) is in the interior of both
    pieces, and the two areas add up to 1.8 and 1.9 times the area of the
    surface.  The same flap torn from left to right gives two pieces that
    tile: the areas add up to the area of the surface, (50%, 25%) is in
    the top piece only and (50%, 75%) in the bottom piece only. *)
Theorem clip_builder_ignores_direction :
  (exists top bottom,
      (2 <= length squareFlap)%nat
      /\ topClip squareFlap = Polygon top
      /\ bottomClip squareFlap = Polygon bottom
      /\ strictlyInside (500, 250) top = true
      /\ strictlyInside (500, 250) bottom = true
      /\ signedArea2 top = -800000
      /\ signedArea2 bottom = 2800000
      /\ area2 top + area2 bottom = 3600000
      /\ ~ tileComplete top bottom)
  /\ (exists top bottom,
        (2 <= length (Tear.jaggedOf flapTear))%nat
        /\ topClip (Tear.jaggedOf flapTear) = Polygon top
        /\ bottomClip (Tear.jaggedOf flapTear) = Polygon bottom
        /\ strictlyInside (500, 250) top = true
        /\ strictlyInside (500, 250) bottom = true
        /\ winding (500, 250) top = -1
        /\ winding (500, 250) bottom = 2
        /\ signedArea2 top = -898505
        /\ signedArea2 bottom = 2898505
        /\ area2 top + area2 bottom = 3797010
        /\ ~ tileComplete top bottom)
  /\ (exists top bottom,
        topClip squareFlapLeftToRight = Polygon top
        /\ bottomClip squareFlapLeftToRight = Polygon bottom
        /\ area2 top = 800000 /\ area2 bottom = 1200000
        /\ area2 top + area2 bottom = surfaceArea2
        /\ strictlyInside (500, 250) top = true
        /\ strictlyInside (500, 250) bottom = false
        /\ strictlyInside (500, 750) top = false
        /\ strictlyInside (500, 750) bottom = true)
  /\ (exists top bottom,
        Tear.phase flapTearLeftToRight = Tear.Revealed
        /\ topClip (Tear.jaggedOf flapTearLeftToRight) = Polygon top
        /\ bottomClip (Tear.jaggedOf flapTearLeftToRight) = Polygon bottom
        /\ area2 top = 861642 /\ area2 bottom = 1138358
        /\ area2 top + area2 bottom = surfaceArea2
        /\ strictlyInside (500, 250) top = true
        /\ strictlyInside (500, 250) bottom = false
        /\ strictlyInside (500, 750) top = false
        /\ strictlyInside (500, 750) bottom = true).
Proof.
  split; [| split; [| split]].
  - exists (verticesOf (topClip squareFlap)),
           (verticesOf (bottomClip squareFlap)).
    split; [vm_compute; lia |].
    repeat (split; [vm_compute; reflexivity |]).
    intros [_ Hover]. specialize (Hover (500, 250)).
    vm_compute in Hover. discriminate Hover.
  - exists (verticesOf (topClip (Tear.jaggedOf flapTear))),
           (verticesOf (bottomClip (Tear.jaggedOf flapTear))).
    split; [vm_compute; lia |].
    repeat (split; [vm_compute; reflexivity |]).
    intros [Harea _]. vm_compute in Harea. discriminate Harea.
  - exists (verticesOf (topClip squareFlapLeftToRight)),
           (verticesOf (bottomClip squareFlapLeftToRight)).
    repeat (split; [vm_compute; reflexivity |]). vm_compute. reflexivity.
  - exists (verticesOf (topClip (Tear.jaggedOf flapTearLeftToRight))),
           (verticesOf (bottomClip (Tear.jaggedOf flapTearLeftToRight))).
    repeat (split; [vm_compute; reflexivity |]). vm_compute. reflexivity.
Qed.

(** A plain drag from right to left does the same on a smaller scale: the
    top polygon has a negative signed area and the areas add up to more
    than the surface. *)
Example right_to_left_pieces :
  let st := Tear.run cover600x400 Tear.initial
              [Tear.PointerDown 570 200; Tear.PointerMove 400 220;
               Tear.PointerMove 200 180; Tear.PointerMove 10 200]%float in
  let top := verticesOf (topClip (Tear.jaggedOf st)) in
  let bottom := verticesOf (bottomClip (Tear.jaggedOf st)) in
  Tear.phase st = Tear.Revealed
  /\ signedArea2 top = -14182
  /\ signedArea2 bottom = 2014182
  /\ area2 top + area2 bottom = 2028364.
Proof. vm_compute. repeat split. Qed.

End ClipFacts.

(** * Further properties

    What the code shows besides: the invariants of the states the machine
    can reach, the behaviour at the edges of its inputs, and the page
    around the letter. *)


(** ** Edge extension: on the boundary, and nearest *)

Module EdgeExtensionMore.

Import Js Geometry FloatFacts FloatOrder EdgeExtension.
Local Open Scope float_scope.

(** A point on one of the four sides of the unit square (or on a line
    through one). *)
Definition onBoundary (p : TearPoint) : Prop :=
  x p = 0 \/ x p = 1 \/ y p = 0 \/ y p = 1.

Definition clampPoint (c : TearPoint) : TearPoint :=
  mkPoint (clamp01 (x c)) (clamp01 (y c)).

Lemma clampPoint_onBoundary (c : TearPoint) :
  onBoundary c -> onBoundary (clampPoint c).
Proof.
  unfold onBoundary, clampPoint. cbn [x y].
  intros [-> | [-> | [-> | ->]]]; auto.
Qed.

Lemma edgeCandidates_onBoundary (point : TearPoint) (dx dy : number)
    (c : TearPoint) :
  In c (edgeCandidates point dx dy) -> onBoundary c.
Proof.
  unfold edgeCandidates, onBoundary. intros Hin.
  repeat match type of Hin with
    | In _ (_ ++ _) => apply in_app_or in Hin as [Hin | Hin]
    | In _ (if ?b then _ else _) => destruct b
    | In _ (let t := _ in _) => cbv zeta in Hin
    | In _ [_] => destruct Hin as [<- | []]
    | In _ [] => destruct Hin
    end; cbn [x y]; auto.
Qed.

Lemma fold_pickCloser_onBoundary (point : TearPoint) (cs : list TearPoint) :
  (forall c, In c cs -> onBoundary c) ->
  forall acc, onBoundary (fst acc) ->
  onBoundary (fst (fold_left (pickCloser point) cs acc)).
Proof.
  induction cs as [| c cs IH]; intros Hcs acc Hacc; [exact Hacc |].
  cbn [fold_left]. apply IH; [intros c' Hc'; apply Hcs; now right |].
  destruct acc as [best bestDist]. unfold pickCloser.
  destruct (validCandidate c); [| exact Hacc].
  destruct (_ <? bestDist); [| exact Hacc].
  apply (clampPoint_onBoundary c). apply Hcs. now left.
Qed.

(** X1.  Whatever its arguments, the point [extendToEdge] returns is on a
    side of the unit square: one of its coordinates is exactly 0 or
    exactly 1. *)
Theorem extendToEdge_onBoundary
    (point neighbor : TearPoint) (isStart : bool) :
  onBoundary (extendToEdge point neighbor isStart).
Proof.
  rewrite extendToEdge_unfold.
  apply fold_pickCloser_onBoundary.
  - intros c. apply edgeCandidates_onBoundary.
  - right. right. left. reflexivity.
Qed.

(** The squared distance of line 752. *)
Definition sqDist (point c : TearPoint) : number :=
  square (x c - x point) + square (y c - y point).

(** What the loop of lines 750-761 has after the candidates [seen]:
    nothing picked and no valid candidate at a finite distance, or the
    clamp of a valid candidate than which no valid candidate is strictly
    nearer. *)
Definition nearestOf (point : TearPoint) (seen : list TearPoint)
    (acc : TearPoint * number) : Prop :=
  (acc = (fallbackEdge point, infinity)
   /\ forall c, In c seen -> validCandidate c = true ->
        (sqDist point c <? infinity) = false)
  \/ (exists c, In c seen /\ validCandidate c = true
        /\ acc = (clampPoint c, sqDist point c)
        /\ forall c', In c' seen -> validCandidate c' = true ->
             (sqDist point c' <? sqDist point c) = false).

Lemma not_ltb_smaller (a b c : number) :
  (a <? c) = false -> (b <? c) = true -> (a <? b) = false.
Proof.
  intros Hac Hbc. destruct (a <? b) eqn:Hab; [| reflexivity].
  now rewrite (ltb_trans a b c Hab Hbc) in Hac.
Qed.

Lemma pickCloser_nearestOf (point : TearPoint) (seen : list TearPoint)
    (acc : TearPoint * number) (c : TearPoint) :
  nearestOf point seen acc ->
  nearestOf point (seen ++ [c]) (pickCloser point acc c).
Proof.
  intros Hacc. destruct acc as [best bestDist]. unfold pickCloser.
  fold (sqDist point c).
  destruct (validCandidate c) eqn:Hv.
  - destruct (sqDist point c <? bestDist) eqn:Hd.
    + right. exists c. split; [apply in_or_app; right; now left |].
      split; [exact Hv |]. split; [reflexivity |].
      intros c' Hin Hv'. apply in_app_or in Hin as [Hin | [<- | []]];
        [| apply ltb_irrefl].
      destruct Hacc as [[[= -> ->] Hnone] | (c0 & _ & _ & [= -> ->] & Hmin)].
      * apply (not_ltb_smaller _ _ infinity); [now apply Hnone | exact Hd].
      * apply (not_ltb_smaller _ _ (sqDist point c0));
          [now apply Hmin | exact Hd].
    + destruct Hacc as [[[= -> ->] Hnone] | (c0 & Hin0 & Hv0 & [= -> ->] & Hmin)].
      * left. split; [reflexivity |].
        intros c' Hin Hv'. apply in_app_or in Hin as [Hin | [<- | []]];
          [now apply Hnone | exact Hd].
      * right. exists c0. split; [apply in_or_app; now left |].
        split; [exact Hv0 |]. split; [reflexivity |].
        intros c' Hin Hv'. apply in_app_or in Hin as [Hin | [<- | []]];
          [now apply Hmin | exact Hd].
  - destruct Hacc as [[Heq Hnone] | (c0 & Hin0 & Hv0 & Heq & Hmin)].
    + left. split; [exact Heq |].
      intros c' Hin Hv'. apply in_app_or in Hin as [Hin | [<- | []]];
        [now apply Hnone | congruence].
    + right. exists c0. split; [apply in_or_app; now left |].
      split; [exact Hv0 |]. split; [exact Heq |].
      intros c' Hin Hv'. apply in_app_or in Hin as [Hin | [<- | []]];
        [now apply Hmin | congruence].
Qed.

Lemma fold_pickCloser_nearestOf (point : TearPoint) (cs : list TearPoint) :
  forall seen acc,
    nearestOf point seen acc ->
    nearestOf point (seen ++ cs) (fold_left (pickCloser point) cs acc).
Proof.
  induction cs as [| c cs IH]; intros seen acc Hacc.
  - now rewrite app_nil_r.
  - cbn [fold_left].
    replace (seen ++ c :: cs) with ((seen ++ [c]) ++ cs)
      by (now rewrite <- app_assoc).
    apply IH. now apply pickCloser_nearestOf.
Qed.

(** X2.  [extendToEdge] returns the clamp of a valid candidate than which
    no valid candidate is strictly nearer to the endpoint (in the squared
    distance the source compares); it returns the fallback, the top edge
    above the endpoint, only when no valid candidate is at a finite
    distance. *)
Theorem extendToEdge_nearest
    (point neighbor : TearPoint) (isStart : bool) :
  let cs := candidatesOf point neighbor in
  (extendToEdge point neighbor isStart = fallbackEdge point
   /\ forall c, In c cs -> validCandidate c = true ->
        (sqDist point c <? infinity) = false)
  \/ (exists c, In c cs /\ validCandidate c = true
        /\ extendToEdge point neighbor isStart
           = mkPoint (clamp01 (x c)) (clamp01 (y c))
        /\ forall c', In c' cs -> validCandidate c' = true ->
             (sqDist point c' <? sqDist point c) = false).
Proof.
  intros cs. rewrite extendToEdge_unfold. fold cs.
  assert (Hinit : nearestOf point [] (fallbackEdge point, infinity)).
  { left. split; [reflexivity |]. intros c []. }
  pose proof (fold_pickCloser_nearestOf point cs [] _ Hinit) as Hfin.
  cbn [app] in Hfin.
  destruct Hfin as [[Heq Hnone] | (c & Hin & Hv & Heq & Hmin)].
  - left. rewrite Heq. split; [reflexivity | exact Hnone].
  - right. exists c. rewrite Heq. repeat split; assumption.
Qed.

(** Towards a corner both the side and the bottom candidates are valid;
    the nearer one wins, though it is pushed second. *)
Example extendToEdge_two_candidates :
  candidatesOf (mkPoint 0.5 0.5) (mkPoint 0 (-0.0078125))
  = [mkPoint 1 1.0078125; mkPoint 0.9923076923076923 1]
  /\ validCandidate (mkPoint 1 1.0078125) = true
  /\ extendToEdge (mkPoint 0.5 0.5) (mkPoint 0 (-0.0078125)) false
     = mkPoint 0.9923076923076923 1.
Proof. vm_compute. repeat split. Qed.

End EdgeExtensionMore.


(** ** Stored points are normalized *)

Module Normalized.

Import Js Geometry Tear FloatFacts FloatFinite EdgeExtension TearFacts.
Local Open Scope float_scope.

(** A cover whose bounding rectangle is made of finite numbers and has a
    width and a height other than 0. *)
Definition finiteCover (c : Cover) : Prop :=
  is_finite (rectLeft c) = true /\ is_finite (rectTop c) = true
  /\ is_finite (rectWidth c) = true /\ is_finite (rectHeight c) = true
  /\ (rectWidth c =? 0) = false /\ (rectHeight c =? 0) = false.

Definition finiteEnv (env : Env) : Prop :=
  match coverRef env with
  | Some c => finiteCover c
  | None => True
  end.

Lemma normalized_coordinate (client origin size : number) :
  is_finite client = true -> is_finite origin = true ->
  is_finite size = true -> (size =? 0) = false ->
  in_unit (Math_max 0 (Math_min 1 ((client - origin) / size))).
Proof.
  intros Hc Ho Hs Hnz. apply (clamp01_unit ((client - origin) / size)).
  apply div_finite_not_nan; [| exact Hs | exact Hnz].
  now apply sub_finite_not_nan.
Qed.

Lemma getNormalizedPos_unit (env : Env) (clientX clientY : number) :
  finiteEnv env ->
  is_finite clientX = true -> is_finite clientY = true ->
  match getNormalizedPos env clientX clientY with
  | Some pos => in_unit_square pos
  | None => True
  end.
Proof.
  unfold finiteEnv, getNormalizedPos. intros Henv Hx Hy.
  destruct (coverRef env) as [c |]; [| exact I].
  destruct Henv as (Hl & Ht & Hw & Hh & Hwz & Hhz).
  split; cbn [x y]; now apply normalized_coordinate.
Qed.

(** X3.  For a cover with a finite rectangle of width and height other
    than 0 and finite pointer coordinates, [getNormalizedPos] returns a
    point of the closed unit square, wherever the pointer is (inside the
    cover or far outside); it returns nothing only when there is no cover
    element. *)
Theorem getNormalizedPos_in_unit_square
    (env : Env) (clientX clientY : number) :
  finiteEnv env ->
  is_finite clientX = true -> is_finite clientY = true ->
  match getNormalizedPos env clientX clientY with
  | Some pos => in_unit_square pos
  | None => coverRef env = None
  end.
Proof.
  unfold finiteEnv, getNormalizedPos. intros Henv Hx Hy.
  destruct (coverRef env) as [c |]; [| reflexivity].
  destruct Henv as (Hl & Ht & Hw & Hh & Hwz & Hhz).
  split; cbn [x y]; now apply normalized_coordinate.
Qed.

Lemma getNormalizedPos_in_unit_square_witness :
  match getNormalizedPos cover300x400 (-280) 200 with
  | Some pos => in_unit_square pos
  | None => coverRef cover300x400 = None
  end.
Proof.
  apply (getNormalizedPos_in_unit_square cover300x400 (-280) 200);
    [| reflexivity | reflexivity].
  repeat split.
Defined.

(** A pointer captured and dragged outside the cover is clamped to the
    nearest side. *)
Example getNormalizedPos_outside :
  getNormalizedPos cover300x400 (-280) 200 = Some (mkPoint 0 0.5)
  /\ getNormalizedPos cover300x400 1000 1000 = Some (mkPoint 1 1).
Proof. split; reflexivity. Qed.

(** *** Every stored point is normalized *)

Definition finiteEvent (ev : Event) : Prop :=
  match ev with
  | PointerDown clientX clientY | PointerMove clientX clientY =>
      is_finite clientX = true /\ is_finite clientY = true
  | PointerUp | Click | ExitComplete => True
  end.

(** The points a state holds are points of the unit square. *)
Definition normalized (st : State) : Prop :=
  Forall in_unit_square (tearPath st)
  /\ (forall c, completedTear st = Some c -> Forall in_unit_square c)
  /\ (forall p, lastPointRef st = Some p -> in_unit_square p).

Definition in_unit_squareb (p : TearPoint) : bool :=
  ((0 <=? x p) && (x p <=? 1)) && ((0 <=? y p) && (y p <=? 1)).

Lemma in_unit_squareb_spec (p : TearPoint) :
  in_unit_squareb p = true -> in_unit_square p.
Proof.
  unfold in_unit_squareb, in_unit_square, in_unit. intros H.
  now apply andb_prop in H.
Qed.

Lemma some_eq {A : Type} (a b : A) : Some a = Some b -> a = b.
Proof. congruence. Qed.

Lemma fakeTear_normalized : Forall in_unit_square fakeTear.
Proof.
  apply Forall_forall. intros p Hp. apply in_unit_squareb_spec.
  assert (Hall : forallb in_unit_squareb fakeTear = true)
    by (vm_compute; reflexivity).
  rewrite forallb_forall in Hall. now apply Hall.
Qed.

Lemma extended_normalized (point neighbor : TearPoint) (isStart : bool) :
  in_unit_square point ->
  in_unit_square (extendToEdge point neighbor isStart).
Proof.
  intros [Hx _]. rewrite extendToEdge_unfold. apply fold_pickCloser_unit.
  split; cbn [fst fallbackEdge x y]; [| reflexivity].
  apply clamp01_unit. now apply in_unit_not_nan.
Qed.

Lemma nth_normalized (path : list TearPoint) (n : nat) :
  Forall in_unit_square path -> (n < length path)%nat ->
  in_unit_square (nth n path undefinedPoint).
Proof.
  intros Hall Hn. rewrite Forall_forall in Hall.
  apply Hall. now apply nth_In.
Qed.

Lemma finishTear_normalized (lastPos : option TearPoint) (st : State) :
  normalized st ->
  (forall p, lastPos = Some p -> in_unit_square p) ->
  normalized (finishTear lastPos st).
Proof.
  intros (Hpath & Hcomp & _) Hlast. unfold finishTear.
  set (finalPath := tearPath st ++ _).
  assert (Hfinal : Forall in_unit_square finalPath).
  { unfold finalPath. apply Forall_app. split; [exact Hpath |].
    destruct lastPos as [p |]; [| constructor].
    constructor; [now apply Hlast | constructor]. }
  cbv zeta. unfold normalized.
  cbn [tearPath completedTear lastPointRef].
  split; [exact Hfinal |]. split; [| discriminate].
  destruct (2 <=? length finalPath)%nat eqn:Hlen; [| exact Hcomp].
  apply Nat.leb_le in Hlen.
  intros c [= <-]. cbn [app].
  constructor.
  - apply extended_normalized. apply nth_normalized; [exact Hfinal | lia].
  - apply Forall_app. split; [exact Hfinal |].
    constructor; [| constructor].
    apply extended_normalized. apply nth_normalized; [exact Hfinal | lia].
Qed.

Lemma rendered_normalized (before next : State) :
  normalized next -> normalized (rendered before next).
Proof.
  unfold normalized.
  destruct (rendered_fields before next)
    as (_ & _ & _ & -> & -> & _ & -> & _).
  trivial.
Qed.

Lemma handleIn_normalized (seen : Closure) (env : Env) (st : State)
    (ev : Event) :
  finiteEnv env -> finiteEvent ev ->
  normalized st -> normalized (handleIn seen env st ev).
Proof.
  intros Henv Hev Hst.
  pose proof Hst as (Hpath & Hcomp & Hlast).
  destruct ev as [cx cy | cx cy | | |]; unfold handleIn.
  - destruct Hev as [Hx Hy].
    pose proof (getNormalizedPos_unit env cx cy Henv Hx Hy) as Hpos.
    unfold handleCoverPointerDownIn.
    destruct (seenRevealed seen); [exact Hst |].
    destruct (getNormalizedPos env cx cy) as [pos |]; [| exact Hst].
    unfold normalized. cbn [tearPath completedTear lastPointRef].
    split; [constructor; [exact Hpos | constructor] |].
    split; [exact Hcomp |]. now intros p [= <-].
  - destruct Hev as [Hx Hy].
    pose proof (getNormalizedPos_unit env cx cy Henv Hx Hy) as Hpos.
    unfold handleCoverPointerMoveIn.
    destruct (dragStartRef st) as [[startX startY] |]; [| exact Hst].
    destruct (negb (seenDragging seen) || seenRevealed seen); [exact Hst |].
    destruct (getNormalizedPos env cx cy) as [pos |]; [| exact Hst].
    destruct (lastPointRef st) as [lastPoint |]; [| exact Hst].
    cbv zeta.
    set (moved := gtb _ 0.012).
    set (progress := Progress.dragProgress _ _ _ _ _).
    set (st' := mkState _ _ _ _ _ _ _ _ _).
    assert (Hst' : normalized st').
    { unfold st', normalized. cbn [tearPath completedTear lastPointRef].
      split; [| split; [exact Hcomp |]].
      - destruct moved; [| exact Hpath].
        apply Forall_app. split; [exact Hpath |].
        constructor; [exact Hpos | constructor].
      - intros p [= <-]. destruct moved; [exact Hpos |].
        now apply Hlast. }
    destruct (geb progress 1 || _); [| exact Hst'].
    apply finishTear_normalized; [exact Hst' |]. now intros p [= <-].
  - unfold handleCoverPointerUpIn.
    destruct (seenRevealed seen); [exact Hst |].
    destruct (commitsOnReleaseIn seen st).
    + pose proof (finishTear_normalized None st Hst ltac:(discriminate))
        as (Hp' & Hc' & _).
      unfold normalized. cbn [tearPath completedTear lastPointRef].
      split; [exact Hp' |]. split; [exact Hc' | discriminate].
    + unfold normalized. cbn [tearPath completedTear lastPointRef].
      split; [constructor |]. split; [exact Hcomp | discriminate].
  - unfold handleTapOpenIn.
    destruct (seenRevealed seen || seenDragging seen); [exact Hst |].
    destruct (negb (isMobileRef env)); [exact Hst |].
    unfold normalized. cbn [tearPath completedTear lastPointRef].
    split; [exact fakeTear_normalized |]. split; [| exact Hlast].
    intros c Hc. apply some_eq in Hc. rewrite <- Hc.
    apply Forall_app. split.
    + constructor; [| constructor]. apply in_unit_squareb_spec. reflexivity.
    + apply Forall_app. split; [exact fakeTear_normalized |].
      constructor; [| constructor]. apply in_unit_squareb_spec. reflexivity.
  - exact Hst.
Qed.

Lemma step_normalized (env : Env) (st : State) (ev : Event) :
  finiteEnv env -> finiteEvent ev ->
  normalized st -> normalized (step env st ev).
Proof.
  intros Henv Hev Hst.
  assert (Hin : forall seen, normalized (rendered st (handleIn seen env st ev)))
    by (intros seen; now apply rendered_normalized, handleIn_normalized).
  destruct ev; unfold step; try exact Hst;
    (destruct (isRevealed st);
     [destruct (exitingCover st) as [seen |]; [apply Hin | exact Hst]
     | rewrite handle_closureOf; apply Hin]).
Qed.

(** X4.  For a cover with a finite rectangle of width and height other
    than 0 and events with finite pointer coordinates, after any sequence
    of events from the initial state every point the machine holds (each
    point of the raw path, each point of the completed tear including the
    two extensions, and the last recorded point) has both coordinates in
    the closed interval from 0 to 1. *)
Theorem stored_points_normalized (env : Env) (evs : list Event) :
  finiteEnv env -> Forall finiteEvent evs ->
  let st := run env initial evs in
  Forall in_unit_square (tearPath st)
  /\ (forall c, completedTear st = Some c -> Forall in_unit_square c)
  /\ (forall p, lastPointRef st = Some p -> in_unit_square p).
Proof.
  intros Henv Hevs.
  assert (Hrun : forall st, normalized st -> normalized (run env st evs)).
  { unfold run. induction Hevs as [| ev evs Hev _ IH]; intros st Hst;
      [exact Hst |].
    cbn [fold_left]. apply IH. now apply step_normalized. }
  apply Hrun. unfold normalized, initial.
  cbn [tearPath completedTear lastPointRef].
  split; [constructor |]. split; discriminate.
Qed.

Lemma stored_points_normalized_witness :
  let st := run cover300x400 initial
              [PointerDown 20 20; PointerMove 150 500; PointerMove 400 (-30);
               PointerUp] in
  Forall in_unit_square (tearPath st)
  /\ (forall c, completedTear st = Some c -> Forall in_unit_square c)
  /\ (forall p, lastPointRef st = Some p -> in_unit_square p).
Proof.
  apply (stored_points_normalized cover300x400
           [PointerDown 20 20; PointerMove 150 500; PointerMove 400 (-30);
            PointerUp]).
  - repeat split.
  - repeat (constructor; try (split; reflexivity)).
Defined.

End Normalized.

(** ** The life of a tear: what every reachable state looks like *)

Module Lifecycle.

Import Js Geometry Tear FloatFacts EdgeExtension EdgeExtensionMore TearFacts.
Import JaggedEdge.
Local Open Scope float_scope.

(** The test of line 189 between a recorded point and the next. *)
Definition farApart (p q : TearPoint) : Prop :=
  gtb (segmentLength p q) 0.012 = true.

Fixpoint spaced (path : list TearPoint) : Prop :=
  match path with
  | p :: (q :: _) as rest => farApart p q /\ spaced rest
  | _ => True
  end.

(** A drag in progress: the start is kept, the path is not empty and its
    last point is the one [lastPointRef] holds. *)
Definition dragShape (st : State) : Prop :=
  exists start earlier lastPoint,
    dragStartRef st = Some start
    /\ tearPath st = earlier ++ [lastPoint]
    /\ lastPointRef st = Some lastPoint
    /\ spaced (tearPath st).

(** [c] is [path] between two points of the boundary. *)
Definition wrapped (path c : list TearPoint) : Prop :=
  exists startEdge endEdge,
    c = [startEdge] ++ path ++ [endEdge]
    /\ onBoundary startEdge /\ onBoundary endEdge.

Definition revealedShape (st : State) : Prop :=
  isDragging st = false /\ dragStartRef st = None /\ lastPointRef st = None
  /\ match completedTear st with
     | Some c => (2 <= length (tearPath st))%nat /\ wrapped (tearPath st) c
     | None => length (tearPath st) = 1%nat
     end.

(** What a handler of the latest render leaves, in a run from the initial
    state. *)
Definition freshlyHandled (st : State) : Prop :=
  match phase st with
  | Idle => st = initial
  | Dragging =>
      completedTear st = None /\ onRevealedCalls st = 0%nat
      /\ exitingCover st = None /\ dragShape st
  | Revealed =>
      onRevealedCalls st = 1%nat /\ exitingCover st = None
      /\ revealedShape st
  end.

(** A completed tear, if there is one, is the raw path between two points
    of the boundary, and the cover is gone. *)
Definition tornShape (st : State) : Prop :=
  match completedTear st with
  | Some c =>
      (2 <= length (tearPath st))%nat /\ wrapped (tearPath st) c
      /\ exitingCover st = None
  | None => True
  end.

(** Every state of a run from the initial state. *)
Definition wellFormed (st : State) : Prop :=
  match phase st with
  | Idle => st = initial
  | Dragging =>
      completedTear st = None /\ onRevealedCalls st = 0%nat
      /\ exitingCover st = None /\ dragShape st
  | Revealed => tornShape st
  end.

Ltac fields :=
  cbn [isRevealed isDragging tearProgress tearPath completedTear
       dragStartRef lastPointRef onRevealedCalls exitingCover] in *.

Lemma spaced_snoc (earlier : list TearPoint) (lastPoint pos : TearPoint) :
  spaced (earlier ++ [lastPoint]) -> farApart lastPoint pos ->
  spaced ((earlier ++ [lastPoint]) ++ [pos]).
Proof.
  intros Hs Hfar. induction earlier as [| p earlier IH].
  - cbn. auto.
  - destruct earlier as [| q earlier].
    + cbn in *. tauto.
    + cbn [app spaced] in *. destruct Hs as [Hpq Hs]. split; [exact Hpq |].
      now apply IH.
Qed.

Lemma extended_onBoundary (point neighbor : TearPoint) (isStart : bool) :
  onBoundary (extendToEdge point neighbor isStart).
Proof.
  rewrite extendToEdge_unfold. apply fold_pickCloser_onBoundary.
  - intros c. apply edgeCandidates_onBoundary.
  - right. right. left. reflexivity.
Qed.

(** [finishTear] on a final path of two points or more. *)
Lemma finishTear_wrapped (lastPos : option TearPoint) (st : State) :
  let finalPath :=
    tearPath st ++ match lastPos with Some p => [p] | None => [] end in
  (2 <= length finalPath)%nat ->
  tearPath (finishTear lastPos st) = finalPath
  /\ exists c, completedTear (finishTear lastPos st) = Some c
               /\ wrapped finalPath c.
Proof.
  intros finalPath Hlen. unfold finishTear. fold finalPath. cbv zeta.
  fields. split; [reflexivity |].
  replace (2 <=? length finalPath)%nat with true
    by (symmetry; now apply Nat.leb_le).
  eexists. split; [reflexivity |].
  eexists. eexists. split; [reflexivity |].
  split; apply extended_onBoundary.
Qed.

Lemma finishTear_short (st : State) :
  (length (tearPath st) < 2)%nat ->
  tearPath (finishTear None st) = tearPath st
  /\ completedTear (finishTear None st) = completedTear st.
Proof.
  intros Hlen. unfold finishTear. fields. rewrite app_nil_r.
  split; [reflexivity |].
  replace (2 <=? length (tearPath st))%nat with false
    by (symmetry; now apply Nat.leb_gt).
  reflexivity.
Qed.

Lemma fakeTear_length : length fakeTear = 21%nat.
Proof. vm_compute. reflexivity. Qed.

Lemma handle_initial (env : Env) (ev : Event) :
  freshlyHandled (handle env initial ev).
Proof.
  destruct ev as [cx cy | cx cy | | |]; unfold handle.
  - unfold handleCoverPointerDown. cbn [isRevealed initial].
    destruct (getNormalizedPos env cx cy) as [pos |]; [| reflexivity].
    unfold freshlyHandled, phase. fields.
    split; [reflexivity |]. split; [reflexivity |]. split; [reflexivity |].
    exists (cx, cy), [], pos. fields. repeat split.
  - reflexivity.
  - reflexivity.
  - unfold handleTapOpen. cbn [isRevealed isDragging initial orb].
    destruct (isMobileRef env); [| reflexivity].
    cbn [negb]. unfold freshlyHandled, phase. fields.
    split; [reflexivity |]. split; [reflexivity |].
    unfold revealedShape. fields.
    split; [reflexivity |]. split; [reflexivity |]. split; [reflexivity |].
    split; [rewrite fakeTear_length; lia |].
    exists (mkPoint 0 0.28), (mkPoint 1 0.72).
    split; [reflexivity |]. split; [now left | right; now left].
  - reflexivity.
Qed.

Lemma handle_dragging (env : Env) (st : State) (ev : Event) :
  phase st = Dragging -> wellFormed st -> freshlyHandled (handle env st ev).
Proof.
  intros Hphase Hwf. unfold wellFormed in Hwf. rewrite Hphase in Hwf.
  destruct Hwf as (Hcomp & Hcalls & Hgone & start & earlier & lastPoint
                   & Hstart & Hpath & Hlast & Hspaced).
  assert (Hflags : isRevealed st = false /\ isDragging st = true).
  { unfold phase in Hphase.
    destruct (isRevealed st), (isDragging st); try discriminate; auto. }
  destruct Hflags as [Hrev Hdrag].
  destruct ev as [cx cy | cx cy | | |]; unfold handle.
  - unfold handleCoverPointerDown. rewrite Hrev.
    destruct (getNormalizedPos env cx cy) as [pos |].
    + unfold freshlyHandled, phase. fields.
      split; [exact Hcomp |]. split; [exact Hcalls |]. split; [exact Hgone |].
      exists (cx, cy), [], pos. fields. repeat split.
    + unfold freshlyHandled. rewrite Hphase.
      split; [exact Hcomp |]. split; [exact Hcalls |]. split; [exact Hgone |].
      now exists start, earlier, lastPoint.
  - unfold handleCoverPointerMove. rewrite Hstart, Hrev, Hdrag, Hlast.
    destruct start as [startX startY]. cbn [negb orb].
    destruct (getNormalizedPos env cx cy) as [pos |].
    2:{ unfold freshlyHandled. rewrite Hphase.
        split; [exact Hcomp |]. split; [exact Hcalls |]. split; [exact Hgone |].
        now exists (startX, startY), earlier, lastPoint. }
    cbv zeta.
    set (moved := gtb _ 0.012).
    assert (Hmoved : moved = true -> farApart lastPoint pos)
      by (intros H; exact H).
    set (progress := Progress.dragProgress _ _ _ _ _).
    set (path' := if moved then tearPath st ++ [pos] else tearPath st).
    set (last' := if moved then pos else lastPoint).
    assert (Hshape : exists earlier', path' = earlier' ++ [last']
                                      /\ spaced path').
    { unfold path', last'. destruct moved.
      - exists (earlier ++ [lastPoint]). rewrite Hpath.
        split; [reflexivity |]. apply spaced_snoc; [| now apply Hmoved].
        now rewrite <- Hpath.
      - exists earlier. now split. }
    destruct Hshape as (earlier' & Hpath' & Hspaced').
    destruct (geb progress 1 || _).
    + set (st' := mkState _ _ _ _ _ _ _ _ _).
      destruct (finishTear_wrapped (Some pos) st') as (Hfp & c & Hc & Hw).
      { unfold st'. fields. rewrite Hpath', !length_app. cbn. lia. }
      unfold freshlyHandled, phase, revealedShape.
      rewrite Hc, Hfp.
      change (isRevealed (finishTear (Some pos) st')) with true.
      change (isDragging (finishTear (Some pos) st')) with false.
      change (dragStartRef (finishTear (Some pos) st')) with (@None (number * number)).
      change (lastPointRef (finishTear (Some pos) st')) with (@None TearPoint).
      change (onRevealedCalls (finishTear (Some pos) st'))
        with (S (onRevealedCalls st)).
      change (exitingCover (finishTear (Some pos) st'))
        with (exitingCover st).
      rewrite Hcalls. cbv iota.
      split; [reflexivity |]. split; [exact Hgone |].
      split; [reflexivity |]. split; [reflexivity |]. split; [reflexivity |].
      split; [| exact Hw].
      unfold st'. fields. rewrite Hpath', !length_app. cbn. lia.
    + unfold freshlyHandled, phase. fields.
      split; [exact Hcomp |]. split; [exact Hcalls |]. split; [exact Hgone |].
      exists (startX, startY), earlier', last'. fields. now repeat split.
  - unfold handleCoverPointerUp. rewrite Hrev.
    destruct (commitsOnRelease st).
    + destruct (Nat.le_gt_cases 2 (length (tearPath st))) as [Hlen | Hlen].
      * destruct (finishTear_wrapped None st) as (Hfp & c & Hc & Hw).
        { cbv zeta. now rewrite app_nil_r. }
        rewrite app_nil_r in Hfp, Hw.
        unfold freshlyHandled, phase, revealedShape. fields.
        rewrite Hc, Hfp.
        change (isRevealed (finishTear None st)) with true.
        change (onRevealedCalls (finishTear None st))
          with (S (onRevealedCalls st)).
        rewrite Hcalls. cbv iota.
        split; [reflexivity |]. split; [exact Hgone |].
        split; [reflexivity |]. split; [reflexivity |].
        split; [reflexivity |]. now split.
      * destruct (finishTear_short st Hlen) as [Hfp Hc].
        unfold freshlyHandled, phase, revealedShape. fields.
        rewrite Hc, Hfp, Hcomp.
        change (isRevealed (finishTear None st)) with true.
        change (onRevealedCalls (finishTear None st))
          with (S (onRevealedCalls st)).
        rewrite Hcalls. cbv iota.
        split; [reflexivity |]. split; [exact Hgone |].
        split; [reflexivity |]. split; [reflexivity |].
        split; [reflexivity |].
        rewrite Hpath, length_app in *. cbn in *. lia.
    + fields. rewrite Hcomp, Hcalls, Hgone. reflexivity.
  - unfold handleTapOpen. rewrite Hrev, Hdrag. cbn [orb].
    unfold freshlyHandled. rewrite Hphase.
    split; [exact Hcomp |]. split; [exact Hcalls |]. split; [exact Hgone |].
    now exists start, earlier, lastPoint.
  - unfold freshlyHandled. rewrite Hphase.
    split; [exact Hcomp |]. split; [exact Hcalls |]. split; [exact Hgone |].
    now exists start, earlier, lastPoint.
Qed.

Lemma chained_last (prog : number) (rest : list TearPoint) :
  forall i p, rest <> [] ->
    last (chained prog i p rest) undefinedPoint = last rest undefinedPoint.
Proof.
  induction rest as [| q rest IH]; intros i p Hne; [congruence |].
  cbn [chained]. destruct (interiorOf_three prog i p q)
    as (a & b & c & ->).
  destruct rest as [| r rest].
  - reflexivity.
  - specialize (IH (i + 1)%Z q ltac:(discriminate)).
    cbn [app]. 
    change (last (a :: b :: c :: q :: chained prog (i + 1) q (r :: rest))
              undefinedPoint)
      with (last (q :: chained prog (i + 1) q (r :: rest)) undefinedPoint).
    change (last (q :: r :: rest) undefinedPoint)
      with (last (r :: rest) undefinedPoint).
    rewrite <- IH.
    destruct (chained prog (i + 1) q (r :: rest)) eqn:E; [| reflexivity].
    apply (f_equal (@length _)) in E.
    rewrite chained_length in E. discriminate.
Qed.

(** The jagged line of a completed tear. *)
Lemma jagged_of_wrapped (path c : list TearPoint) (prog : number)
    (startEdge endEdge : TearPoint) :
  c = [startEdge] ++ path ++ [endEdge] ->
  let jagged := jaggedTearPoints path (Some c) prog in
  length jagged = (4 * (length path + 1) + 1)%nat
  /\ hd undefinedPoint jagged = startEdge
  /\ last jagged undefinedPoint = endEdge.
Proof.
  intros -> jagged. unfold jagged, jaggedTearPoints, tearSource.
  cbn [app].
  replace (length (startEdge :: path ++ [endEdge]) <? 2)%nat with false
    by (symmetry; apply Nat.ltb_ge; cbn [length]; rewrite length_app;
        cbn; lia).
  assert (Hne : path ++ [endEdge] <> [])
    by (destruct path; discriminate).
  rewrite chainSegments_chained by exact Hne.
  cbn [length hd]. rewrite chained_length, length_app.
  cbn [length]. split; [lia |]. split; [reflexivity |].
  pose proof (chained_last prog (path ++ [endEdge]) 0 startEdge Hne) as Hl.
  rewrite last_last in Hl.
  assert (Hnil : chained prog 0 startEdge (path ++ [endEdge]) <> []).
  { intros E. apply (f_equal (@length _)) in E.
    rewrite chained_length, length_app in E. cbn in E. lia. }
  revert Hl Hnil.
  destruct (chained prog 0 startEdge (path ++ [endEdge])) as [| t l];
    [congruence |].
  intros Hl _. exact Hl.
Qed.

(** A completed tear set by [finishTear] or by the tap. *)
Definition wrappedIfAny (st : State) : Prop :=
  match completedTear st with
  | Some c => (2 <= length (tearPath st))%nat /\ wrapped (tearPath st) c
  | None => True
  end.

Lemma finishTear_wrappedIfAny (lastPos : option TearPoint) (st : State) :
  completedTear st = None -> wrappedIfAny (finishTear lastPos st).
Proof.
  intros Hnone. unfold wrappedIfAny.
  set (finalPath :=
         tearPath st ++ match lastPos with Some p => [p] | None => [] end).
  destruct (Nat.le_gt_cases 2 (length finalPath)) as [Hlen | Hlen].
  - destruct (finishTear_wrapped lastPos st Hlen) as (-> & c & -> & Hw).
    now split.
  - unfold finishTear. fold finalPath. cbv zeta. fields.
    replace (2 <=? length finalPath)%nat with false
      by (symmetry; now apply Nat.leb_gt).
    now rewrite Hnone.
Qed.

Lemma handleIn_wrappedIfAny (seen : Closure) (env : Env) (st : State)
    (ev : Event) :
  completedTear st = None -> wrappedIfAny (handleIn seen env st ev).
Proof.
  intros Hnone.
  assert (Hsame : wrappedIfAny st) by (unfold wrappedIfAny; now rewrite Hnone).
  destruct ev as [cx cy | cx cy | | |]; unfold handleIn.
  - unfold handleCoverPointerDownIn.
    destruct (seenRevealed seen); [exact Hsame |].
    destruct (getNormalizedPos env cx cy); [| exact Hsame].
    unfold wrappedIfAny. fields. now rewrite Hnone.
  - unfold handleCoverPointerMoveIn.
    destruct (dragStartRef st) as [[sx sy] |]; [| exact Hsame].
    destruct (negb (seenDragging seen) || seenRevealed seen);
      [exact Hsame |].
    destruct (getNormalizedPos env cx cy) as [pos |]; [| exact Hsame].
    destruct (lastPointRef st) as [lastPoint |]; [| exact Hsame].
    cbv zeta. destruct (geb _ 1 || _).
    + now apply finishTear_wrappedIfAny.
    + unfold wrappedIfAny. fields. now rewrite Hnone.
  - unfold handleCoverPointerUpIn.
    destruct (seenRevealed seen); [exact Hsame |].
    destruct (commitsOnReleaseIn seen st).
    + pose proof (finishTear_wrappedIfAny None st Hnone) as Hw.
      unfold wrappedIfAny in *. fields. exact Hw.
    + unfold wrappedIfAny. fields. now rewrite Hnone.
  - unfold handleTapOpenIn.
    destruct (seenRevealed seen || seenDragging seen); [exact Hsame |].
    destruct (negb (isMobileRef env)); [exact Hsame |].
    unfold wrappedIfAny. fields.
    split; [rewrite fakeTear_length; lia |].
    exists (mkPoint 0 0.28), (mkPoint 1 0.72).
    split; [reflexivity |]. split; [now left | right; now left].
  - exact Hsame.
Qed.

(** With a completed tear the torn pieces are rendered and the cover is
    taken out at once. *)
Lemma rendered_tornShape (before next : State) :
  isRevealed next = true -> wrappedIfAny next ->
  tornShape (rendered before next).
Proof.
  intros Hrev Hw. unfold tornShape, wrappedIfAny, rendered, coverView in *.
  rewrite Hrev. cbn [negb].
  destruct (completedTear next) as [c |] eqn:Hc.
  - destruct Hw as (Hlen & startEdge & endEdge & Heq & Hs & He).
    destruct (jagged_of_wrapped (tearPath next) c (tearProgress next)
                startEdge endEdge Heq) as (Hjag & _).
    unfold jaggedOf. rewrite Hc.
    replace (2 <=? length
                     (jaggedTearPoints (tearPath next) (Some c)
                        (tearProgress next)))%nat
      with true by (symmetry; apply Nat.leb_le; lia).
    unfold withExitingCover. fields. rewrite Hc.
    split; [exact Hlen |]. split; [| reflexivity].
    now exists startEdge, endEdge.
  - destruct (isRevealed before); [now rewrite Hc |].
    unfold withExitingCover. fields. now rewrite Hc.
Qed.

Lemma rendered_covered (before next : State) :
  isRevealed next = false -> exitingCover next = None ->
  rendered before next = next.
Proof.
  intros Hrev Hgone. unfold rendered, coverView. rewrite Hrev. cbn [negb].
  unfold withExitingCover. rewrite <- Hgone. now destruct next.
Qed.

Lemma rendered_freshlyHandled (before next : State) :
  freshlyHandled next -> wellFormed (rendered before next).
Proof.
  intros Hnext. unfold freshlyHandled in Hnext.
  destruct (isRevealed next) eqn:Hrev.
  - unfold phase in Hnext. rewrite Hrev in Hnext.
    destruct Hnext as (_ & _ & _ & _ & _ & Hshape).
    assert (Htorn : tornShape (rendered before next)).
    { apply rendered_tornShape; [exact Hrev |].
      unfold wrappedIfAny. now destruct (completedTear next). }
    unfold wellFormed, phase.
    replace (isRevealed (rendered before next)) with true
      by (symmetry; rewrite <- Hrev; apply rendered_fields).
    exact Htorn.
  - assert (Hgone : exitingCover next = None).
    { unfold phase in Hnext. rewrite Hrev in Hnext.
      destruct (isDragging next); [tauto | now subst next]. }
    rewrite rendered_covered by assumption.
    unfold wellFormed, phase in *. rewrite Hrev in *.
    destruct (isDragging next); tauto.
Qed.

Lemma step_wellFormed (env : Env) (st : State) (ev : Event) :
  wellFormed st -> wellFormed (step env st ev).
Proof.
  intros Hwf.
  assert (Hexit : wellFormed (withExitingCover None st)).
  { unfold wellFormed, phase, tornShape, dragShape, withExitingCover in *.
    fields.
    destruct (isRevealed st).
    - destruct (completedTear st); [| exact I].
      destruct Hwf as (Hlen & Hw & _). now repeat split.
    - destruct (isDragging st).
      + destruct Hwf as (Hc & Hn & Hg & Hd).
        split; [exact Hc |]. split; [exact Hn |]. now split.
      + now subst st. }
  destruct (isRevealed st) eqn:Hrev.
  - (* revealed: the exiting cover, or none *)
    assert (Htorn : tornShape st)
      by (unfold wellFormed, phase in Hwf; now rewrite Hrev in Hwf).
    destruct (exitingCover st) as [seen |] eqn:Hseen.
    + assert (Hnone : completedTear st = None).
      { unfold tornShape in Htorn.
        destruct (completedTear st); [| reflexivity].
        destruct Htorn as (_ & _ & Hg). congruence. }
      assert (Hin : wellFormed (rendered st (handleIn seen env st ev))).
      { destruct (handleIn_revealed seen env st ev Hrev) as [Hr _].
        unfold wellFormed, phase.
        replace (isRevealed (rendered st (handleIn seen env st ev)))
          with true by (symmetry; rewrite <- Hr; apply rendered_fields).
        apply rendered_tornShape; [exact Hr |].
        now apply handleIn_wrappedIfAny. }
      destruct ev; unfold step; rewrite ?Hrev, ?Hseen;
        try exact Hin; exact Hexit.
    + rewrite step_unmounted by assumption. exact Hwf.
  - (* not revealed: the handlers of the latest render *)
    assert (Hfresh : freshlyHandled (handle env st ev)).
    { destruct (isDragging st) eqn:Hdrag.
      - apply handle_dragging; [| exact Hwf].
        unfold phase. now rewrite Hrev, Hdrag.
      - unfold wellFormed, phase in Hwf. rewrite Hrev, Hdrag in Hwf.
        subst st. apply handle_initial. }
    rewrite step_covered by exact Hrev.
    destruct ev; try (now apply rendered_freshlyHandled); exact Hexit.
Qed.

Lemma run_wellFormed (env : Env) (evs : list Event) :
  forall st, wellFormed st -> wellFormed (run env st evs).
Proof.
  unfold run. induction evs as [| ev evs IH]; intros st Hst; [exact Hst |].
  cbn [fold_left]. apply IH. now apply step_wellFormed.
Qed.

Lemma reachable_wellFormed (env : Env) (evs : list Event) :
  wellFormed (run env initial evs).
Proof. apply run_wellFormed. reflexivity. Qed.

(** X5.  Whenever the machine is [Idle] after some events, it is in its
    initial state exactly: an abandoned drag leaves nothing behind (no
    point of the path, no progress, no drag start, no last point, no
    completed tear, no [onRevealed] call).  A pointer-move or a pointer-up
    that arrives then, with no pointer-down before it, changes nothing. *)
Theorem idle_is_initial (env : Env) (evs : list Event) :
  let st := run env initial evs in
  phase st = Idle ->
  st = initial
  /\ (forall clientX clientY, step env st (PointerMove clientX clientY) = st)
  /\ step env st PointerUp = st.
Proof.
  intros st Hphase.
  pose proof (reachable_wellFormed env evs) as Hwf.
  fold st in Hwf. unfold wellFormed in Hwf. rewrite Hphase in Hwf.
  rewrite Hwf. repeat split.
Qed.

Lemma idle_is_initial_witness :
  let st := run cover300x400 initial
              [PointerDown 20 20; PointerMove 147.5 190; PointerUp] in
  st = initial
  /\ (forall clientX clientY,
        step cover300x400 st (PointerMove clientX clientY) = st)
  /\ step cover300x400 st PointerUp = st.
Proof.
  apply (idle_is_initial cover300x400
           [PointerDown 20 20; PointerMove 147.5 190; PointerUp]).
  vm_compute. reflexivity.
Defined.

(** X6.  While a drag is in progress (after any events from the initial
    state), the drag start is kept, the raw path is not empty, its last
    point is the one the next move is measured from, every two
    consecutive points of it are more than 0.012 apart (as computed by
    line 188), and there is no completed tear. *)
Theorem dragging_path_spaced (env : Env) (evs : list Event) :
  let st := run env initial evs in
  phase st = Dragging ->
  dragStartRef st <> None
  /\ completedTear st = None
  /\ (exists earlier lastPoint,
        tearPath st = earlier ++ [lastPoint]
        /\ lastPointRef st = Some lastPoint)
  /\ spaced (tearPath st).
Proof.
  intros st Hphase.
  pose proof (reachable_wellFormed env evs) as Hwf.
  fold st in Hwf. unfold wellFormed in Hwf. rewrite Hphase in Hwf.
  destruct Hwf as (Hcomp & _ & _ & start & earlier & lastPoint
                   & Hstart & Hpath & Hlast & Hspaced).
  split; [congruence |]. split; [exact Hcomp |].
  split; [now exists earlier, lastPoint | exact Hspaced].
Qed.

Lemma dragging_path_spaced_witness :
  let st := run cover300x400 initial
              [PointerDown 20 20; PointerMove 21 21; PointerMove 147.5 190] in
  dragStartRef st <> None
  /\ completedTear st = None
  /\ (exists earlier lastPoint,
        tearPath st = earlier ++ [lastPoint]
        /\ lastPointRef st = Some lastPoint)
  /\ spaced (tearPath st).
Proof.
  apply (dragging_path_spaced cover300x400
           [PointerDown 20 20; PointerMove 21 21; PointerMove 147.5 190]).
  vm_compute. reflexivity.
Defined.

(** A move of one pixel is not recorded; the next one is. *)
Example small_moves_skipped :
  tearPath (run cover300x400 initial
              [PointerDown 20 20; PointerMove 21 21; PointerMove 147.5 190])
  = [mkPoint 0.066666666666666666 0.05; mkPoint 0.49166666666666664 0.475].
Proof. vm_compute. reflexivity. Qed.

(** X7.  What a revealed machine holds, after any events from the initial
    state.  If there is a completed tear, it is the raw path (of two
    points or more) between two points of the boundary of the surface,
    the jagged line drawn from it starts at the first and ends at the
    second, with four points per segment after the first, the two torn
    pieces are rendered, and no later event changes the state.  If there
    is none, nothing is rendered in the place of the cover. *)
Theorem revealed_tear_spans (env : Env) (evs : list Event) :
  let st := run env initial evs in
  phase st = Revealed ->
  match completedTear st with
  | Some c =>
      (2 <= length (tearPath st))%nat
      /\ (exists startEdge endEdge,
            c = [startEdge] ++ tearPath st ++ [endEdge]
            /\ onBoundary startEdge /\ onBoundary endEdge
            /\ length (jaggedOf st)
               = (4 * (length (tearPath st) + 1) + 1)%nat
            /\ hd undefinedPoint (jaggedOf st) = startEdge
            /\ last (jaggedOf st) undefinedPoint = endEdge)
      /\ coverView st = TornPieces
      /\ (forall ev, step env st ev = st)
  | None => coverView st = NoCover
  end.
Proof.
  intros st Hphase.
  pose proof (reachable_wellFormed env evs) as Hwf.
  fold st in Hwf. unfold wellFormed in Hwf. rewrite Hphase in Hwf.
  assert (Hrev : isRevealed st = true).
  { unfold phase in Hphase. destruct (isRevealed st); [reflexivity |].
    destruct (isDragging st); discriminate. }
  unfold tornShape in Hwf. unfold coverView, jaggedOf. rewrite Hrev.
  cbn [negb].
  destruct (completedTear st) as [c |]; [| reflexivity].
  destruct Hwf as (Hlen & (startEdge & endEdge & Hc & Hs & He) & Hgone).
  destruct (jagged_of_wrapped (tearPath st) c (tearProgress st)
              startEdge endEdge Hc) as (Hjag & Hhd & Hlast).
  split; [exact Hlen |]. split; [| split].
  - exists startEdge, endEdge. now repeat split.
  - replace (2 <=? length
                     (jaggedTearPoints (tearPath st) (Some c)
                        (tearProgress st)))%nat
      with true by (symmetry; apply Nat.leb_le; lia).
    reflexivity.
  - intros ev. now apply step_unmounted.
Qed.

Lemma revealed_tear_spans_witness :
  let st := run cover300x400 initial
              [PointerDown 20 20; PointerMove 236.75 309; PointerUp] in
  match completedTear st with
  | Some c =>
      (2 <= length (tearPath st))%nat
      /\ (exists startEdge endEdge,
            c = [startEdge] ++ tearPath st ++ [endEdge]
            /\ onBoundary startEdge /\ onBoundary endEdge
            /\ length (jaggedOf st)
               = (4 * (length (tearPath st) + 1) + 1)%nat
            /\ hd undefinedPoint (jaggedOf st) = startEdge
            /\ last (jaggedOf st) undefinedPoint = endEdge)
      /\ coverView st = TornPieces
      /\ (forall ev, step cover300x400 st ev = st)
  | None => coverView st = NoCover
  end.
Proof.
  apply (revealed_tear_spans cover300x400
           [PointerDown 20 20; PointerMove 236.75 309; PointerUp]).
  vm_compute. reflexivity.
Defined.

(** The second case happens, with a path of one point, of two, or of
    none.  A press 3 pixels from the left edge, a drag out of the cover
    to the left (the pointer is captured), a release: the move is clamped
    to the edge, 0.01 from the press, and is not recorded; progress is
    283 / 425 and the last point is within 4% of an edge, so the release
    commits with a path of one point.  The cover then fades out with the
    handlers of the drag, which take a second drag. *)
Example revealed_without_tear :
  let st := run cover300x400 initial
              [PointerDown 3 200; PointerMove (-280) 200; PointerUp] in
  phase st = Revealed /\ onRevealedCalls st = 1%nat
  /\ tearPath st = [mkPoint 0.01 0.5]
  /\ completedTear st = None
  /\ (let st' := run cover300x400 st
                   [PointerDown 40 40; PointerMove 100 100] in
      phase st' = Revealed /\ completedTear st' = None
      /\ length (tearPath st') = 2%nat)
  /\ (let st' := run cover300x400 st [PointerDown 40 40; PointerUp] in
      phase st' = Revealed /\ completedTear st' = None
      /\ tearPath st' = []).
Proof. vm_compute. repeat split. Qed.

End Lifecycle.

(** ** The move that completes a tear *)

Module CompletingMove.

Import Js Geometry Tear FloatFacts FloatFinite EdgeExtension TearFacts.
Import Lifecycle.
Local Open Scope float_scope.

(** With no direction at all ([neighbor = point], finite coordinates)
    [extendToEdge] has no candidate and returns the fallback. *)
Lemma extendToEdge_same_point (point : TearPoint) (isStart : bool) :
  is_finite (x point) = true -> is_finite (y point) = true ->
  extendToEdge point point isStart = fallbackEdge point.
Proof.
  intros Hx Hy. rewrite extendToEdge_unfold. unfold candidatesOf.
  rewrite (JaggedEdge.sub_diag (x point) Hx).
  rewrite (JaggedEdge.sub_diag (y point) Hy).
  unfold edgeCandidates. change (neqb 0 0) with false. reflexivity.
Qed.

Lemma twice_at_end (path : list TearPoint) (pos : TearPoint) :
  let finalPath := (path ++ [pos]) ++ [pos] in
  (2 <=? length finalPath)%nat = true
  /\ (1 <? length finalPath)%nat = true
  /\ nth (length finalPath - 1) finalPath undefinedPoint = pos
  /\ nth (length finalPath - 2) finalPath undefinedPoint = pos.
Proof.
  intros finalPath.
  assert (Hlen : length finalPath = S (S (length path))).
  { unfold finalPath. rewrite !length_app. cbn. lia. }
  rewrite Hlen.
  split; [apply Nat.leb_le; lia |]. split; [apply Nat.ltb_lt; lia |].
  unfold finalPath. split.
  - rewrite app_nth2 by (rewrite length_app; cbn; lia).
    rewrite length_app. cbn [length].
    replace (S (S (length path)) - 1 - (length path + 1))%nat with 0%nat
      by lia.
    reflexivity.
  - rewrite app_nth1 by (rewrite length_app; cbn; lia).
    rewrite app_nth2 by lia.
    replace (S (S (length path)) - 2 - length path)%nat with 0%nat by lia.
    reflexivity.
Qed.

(** X8.  A pointer-move that is recorded (more than 0.012 from the last
    recorded point) and also completes the tear puts its point in the
    final path twice: once by the recording, once by [finishTear].  The
    end of the path then has no direction, and whatever the direction of
    the drag the completed tear ends on the top edge, at [y = 0] straight
    above that point (the fallback of [extendToEdge]), not on the edge the
    drag was heading for. *)
Theorem completing_move_ends_on_top
    (env : Env) (st : State) (clientX clientY : number)
    (start : number * number) (lastPoint pos : TearPoint) :
  isRevealed st = false -> isDragging st = true ->
  dragStartRef st = Some start -> lastPointRef st = Some lastPoint ->
  getNormalizedPos env clientX clientY = Some pos ->
  is_finite (x pos) = true -> is_finite (y pos) = true ->
  farApart lastPoint pos ->
  let st' := step env st (PointerMove clientX clientY) in
  isRevealed st' = true ->
  tearPath st' = tearPath st ++ [pos; pos]
  /\ exists startEdge,
       completedTear st'
       = Some ([startEdge] ++ tearPath st ++ [pos; pos]
                 ++ [mkPoint (clamp01 (x pos)) 0]).
Proof.
  intros Hrev Hdrag Hstart Hlast Hpos Hfx Hfy Hfar st'.
  unfold st'. rewrite step_covered by exact Hrev. rendered_fields.
  unfold handle, handleCoverPointerMove.
  rewrite Hstart, Hrev, Hdrag, Hlast, Hpos. destruct start as [startX startY].
  cbn [negb orb]. cbv zeta.
  set (moved := gtb _ 0.012).
  assert (Hmoved : moved = true) by exact Hfar.
  rewrite Hmoved.
  destruct (geb _ 1 || _).
  2:{ cbn [isRevealed]. congruence. }
  intros _. unfold finishTear. cbv zeta.
  cbn [tearPath completedTear].
  destruct (twice_at_end (tearPath st) pos) as (H2 & H1 & Hn1 & Hn2).
  cbv zeta in H2, H1, Hn1, Hn2.
  rewrite H2, H1, Hn1, Hn2.
  rewrite (extendToEdge_same_point pos false Hfx Hfy).
  split; [now rewrite <- app_assoc |].
  eexists. unfold fallbackEdge. rewrite <- !app_assoc. reflexivity.
Qed.

Lemma completing_move_ends_on_top_witness :
  let st := run cover300x400 initial [PointerDown 10 10; PointerMove 150 200] in
  let pos := mkPoint (290 / 300) (390 / 400) in
  let st' := step cover300x400 st (PointerMove 290 390) in
  tearPath st' = tearPath st ++ [pos; pos]
  /\ exists startEdge,
       completedTear st'
       = Some ([startEdge] ++ tearPath st ++ [pos; pos]
                 ++ [mkPoint (clamp01 (x pos)) 0]).
Proof.
  intros st pos.
  apply (completing_move_ends_on_top cover300x400 st 290 390
           (10, 10) (mkPoint 0.5 0.5) pos);
    vm_compute; reflexivity.
Defined.

(** On a 300 by 400 cover, a drag from the top left corner to the bottom
    right corner: the tear ends at the top edge, not at the corner the
    drag reached. *)
Example diagonal_drag_ends_on_top :
  completedTear
    (run cover300x400 initial
       [PointerDown 10 10; PointerMove 150 200; PointerMove 290 390])
  = Some [mkPoint 0.0087719298245613996 0;
          mkPoint 0.033333333333333333 0.025;
          mkPoint 0.5 0.5;
          mkPoint 0.96666666666666667 0.97499999999999998;
          mkPoint 0.96666666666666667 0.97499999999999998;
          mkPoint 0.96666666666666667 0].
Proof. vm_compute. reflexivity. Qed.

End CompletingMove.

(** ** The progress a state holds *)

Module ProgressInvariant.

Import Js Geometry Tear FloatFacts FloatOrder TearFacts.
Local Open Scope float_scope.

(** NaN, or a number of the unit interval. *)
Definition unitOrNaN (v : number) : Prop :=
  is_nan v = true \/ in_unit v.

Lemma dragProgress_unitOrNaN (el : option (number * number))
    (startX startY clientX clientY : number) :
  unitOrNaN (Progress.dragProgress el startX startY clientX clientY).
Proof.
  unfold unitOrNaN.
  destruct (is_nan (Progress.dragProgress el startX startY clientX clientY))
    eqn:Hn; [now left | right].
  now apply ProgressFacts.floatProgress_unit.
Qed.

Lemma past_threshold (threshold progress : number) :
  (0.6 <? threshold) = true -> geb progress threshold = true ->
  (0.6 <=? progress) = true.
Proof.
  unfold geb. intros Ht Hp. apply ltb_leb.
  now apply (ltb_leb_trans 0.6 threshold progress).
Qed.

(** Whatever render the handler is of, it stores 0, 1, a drag progress,
    or nothing. *)
Lemma handleIn_unitOrNaN (seen : Closure) (env : Env) (st : State)
    (ev : Event) :
  unitOrNaN (tearProgress st) ->
  unitOrNaN (tearProgress (handleIn seen env st ev)).
Proof.
  intros Hst. destruct ev as [cx cy | cx cy | | |]; unfold handleIn.
  - unfold handleCoverPointerDownIn.
    destruct (seenRevealed seen); [exact Hst |].
    destruct (getNormalizedPos env cx cy); exact Hst.
  - unfold handleCoverPointerMoveIn.
    destruct (dragStartRef st) as [[startX startY] |]; [| exact Hst].
    destruct (negb (seenDragging seen) || seenRevealed seen); [exact Hst |].
    destruct (getNormalizedPos env cx cy) as [pos |]; [| exact Hst].
    destruct (lastPointRef st) as [lastPoint |]; [| exact Hst].
    cbv zeta. destruct (geb _ 1 || _); apply dragProgress_unitOrNaN.
  - unfold handleCoverPointerUpIn.
    destruct (seenRevealed seen); [exact Hst |].
    destruct (commitsOnReleaseIn seen st); [exact Hst |].
    now right.
  - unfold handleTapOpenIn.
    destruct (seenRevealed seen || seenDragging seen); [exact Hst |].
    destruct (negb (isMobileRef env)); [exact Hst |].
    now right.
  - exact Hst.
Qed.

Lemma step_unitOrNaN (env : Env) (st : State) (ev : Event) :
  unitOrNaN (tearProgress st) -> unitOrNaN (tearProgress (step env st ev)).
Proof.
  intros Hst.
  assert (Hin : forall seen,
             unitOrNaN (tearProgress (rendered st (handleIn seen env st ev)))).
  { intros seen.
    replace (tearProgress (rendered st (handleIn seen env st ev)))
      with (tearProgress (handleIn seen env st ev))
      by (symmetry; apply rendered_fields).
    now apply handleIn_unitOrNaN. }
  destruct ev; unfold step; try exact Hst;
    (destruct (isRevealed st);
     [destruct (exitingCover st) as [seen |]; [apply Hin | exact Hst]
     | rewrite handle_closureOf; apply Hin]).
Qed.

(** The handler that reveals the letter, among those of the latest
    render, leaves a progress of 0.6 at least. *)
Lemma handle_reveals_past_threshold (env : Env) (st : State) (ev : Event) :
  isRevealed st = false -> isRevealed (handle env st ev) = true ->
  (0.6 <=? tearProgress (handle env st ev)) = true.
Proof.
  intros Hrev. destruct ev as [cx cy | cx cy | | |]; unfold handle.
  - unfold handleCoverPointerDown. rewrite Hrev.
    destruct (getNormalizedPos env cx cy); cbn [isRevealed]; congruence.
  - unfold handleCoverPointerMove.
    destruct (dragStartRef st) as [[startX startY] |]; [| congruence].
    destruct (negb (isDragging st) || isRevealed st); [congruence |].
    destruct (getNormalizedPos env cx cy) as [pos |]; [| congruence].
    destruct (lastPointRef st) as [lastPoint |]; [| congruence].
    cbv zeta.
    set (progress := Progress.dragProgress _ _ _ _ _).
    destruct (geb progress 1 || _) eqn:Hfinish.
    + intros _. unfold finishTear. cbn [tearProgress].
      apply orb_prop in Hfinish as [H1 | H75].
      * now apply (past_threshold 1).
      * apply andb_prop in H75 as [H75 _]. now apply (past_threshold 0.75).
    + cbn [isRevealed]. congruence.
  - unfold handleCoverPointerUp. rewrite Hrev.
    destruct (commitsOnRelease st) eqn:Hcommit.
    + intros _. unfold finishTear. cbn [tearProgress].
      unfold commitsOnRelease in Hcommit.
      apply orb_prop in Hcommit as [H85 | H6].
      * now apply (past_threshold 0.85).
      * apply andb_prop in H6 as [H6 _]. exact H6.
    + cbn [isRevealed]. congruence.
  - unfold handleTapOpen. rewrite Hrev. cbn [orb].
    destruct (isDragging st); [congruence |].
    destruct (negb (isMobileRef env)); [congruence |].
    intros _. reflexivity.
  - congruence.
Qed.

(** X9.  After any events from the initial state the stored progress is a
    number from 0 to 1, or NaN; and the event that reveals the letter
    leaves a progress from 0.6 to 1: no gesture reveals the letter below
    the lower release threshold. *)
Theorem progress_range_at_reveal (env : Env) (evs : list Event) :
  let st := run env initial evs in
  (is_nan (tearProgress st) = true \/ in_unit (tearProgress st))
  /\ (forall ev,
        isRevealed st = false -> isRevealed (step env st ev) = true ->
        (0.6 <=? tearProgress (step env st ev)) = true
        /\ (tearProgress (step env st ev) <=? 1) = true).
Proof.
  intros st.
  assert (Hrun : forall st0, unitOrNaN (tearProgress st0) ->
                             unitOrNaN (tearProgress (run env st0 evs))).
  { unfold run. induction evs as [| ev evs' IH]; intros st0 H0; [exact H0 |].
    cbn [fold_left]. apply IH. now apply step_unitOrNaN. }
  assert (Hunit : unitOrNaN (tearProgress st))
    by (apply Hrun; now right).
  split; [exact Hunit |].
  intros ev Hrev Hrev'.
  pose proof (step_unitOrNaN env st ev Hunit) as Hunit'.
  assert (Hpast : (0.6 <=? tearProgress (step env st ev)) = true).
  { rewrite step_covered in Hrev' |- * by exact Hrev.
    destruct ev;
      try (revert Hrev'; rendered_fields; intros Hrev';
           now apply handle_reveals_past_threshold).
    cbn [isRevealed withExitingCover] in Hrev'. congruence. }
  split; [exact Hpast |].
  destruct Hunit' as [Hnan | Hin].
  - apply leb_not_nan in Hpast as [_ Hn]. congruence.
  - unfold in_unit in Hin. now apply andb_prop in Hin.
Qed.

(** NaN happens: a cover that is not laid out (every size 0), and a move
    to where the pointer went down (0 / 0).  The release then snaps
    back. *)
Example progress_nan :
  let st := run (mkEnv (Some (mkCover 0 0 0 0 0 0)) false) initial
              [PointerDown 10 10; PointerMove 10 10] in
  phase st = Dragging /\ is_nan (tearProgress st) = true
  /\ step (mkEnv (Some (mkCover 0 0 0 0 0 0)) false) st PointerUp = initial.
Proof. vm_compute. repeat split. Qed.

(** After the reveal the progress can go below the threshold: the cover
    that fades out after a reveal with no completed tear takes a press
    and a release in the middle, which reset it to 0. *)
Example progress_reset_after_reveal :
  let st := run cover300x400 revealedWithoutTear
              [PointerDown 40 40; PointerUp] in
  phase st = Revealed /\ tearProgress st = 0.
Proof. vm_compute. split; reflexivity. Qed.

End ProgressInvariant.

(** ** The noise source never merges two states, and never stutters *)

Module NoiseCycle.

Import Noise NoiseFacts.
Local Open Scope Z_scope.

Lemma gcd_modulus_16806 : Z.gcd modulus 16806 = 1.
Proof. reflexivity. Qed.

Lemma next_state_mod (s : rng) :
  0 < s -> snd (next s) = (s * 16807) mod modulus.
Proof.
  intros Hs. unfold next, modulus. cbn [snd].
  rewrite Z.add_0_r. apply Z.rem_mod_nonneg; lia.
Qed.

Lemma next_no_fixed_point (s : rng) :
  0 < s < modulus -> snd (next s) <> s.
Proof.
  intros Hs Hfix. rewrite next_state_mod in Hfix by lia.
  assert (Hdiv : (modulus | 16806 * s)).
  { apply Z.mod_divide; [unfold modulus; lia |].
    replace (16806 * s) with (s * 16807 - s) by lia.
    rewrite Zminus_mod, Hfix, (Z.mod_small s) by lia.
    rewrite Z.sub_diag. reflexivity. }
  apply Z.gauss in Hdiv; [| exact gcd_modulus_16806].
  apply Z.divide_pos_le in Hdiv; lia.
Qed.

Lemma next_value_eq (s1 s2 : rng) :
  (fst (next s1) == fst (next s2))%Q -> snd (next s1) = snd (next s2).
Proof.
  unfold next. cbn [fst snd]. unfold Qeq. cbn [Qnum Qden]. lia.
Qed.

(** A state below the modulus keeps the next product below [2 ^ 53],
    where the doubles of the source are exact. *)
Lemma state_product_exact (s : rng) :
  0 < s < modulus -> s * 16807 < 2 ^ 53.
Proof. unfold modulus. intros Hs. change (2 ^ 53) with 9007199254740992. lia. Qed.

Lemma nth_state_exact (n : nat) :
  forall s : rng,
    live s -> s * 16807 < 2 ^ 53 -> nth_state s n * 16807 < 2 ^ 53.
Proof.
  induction n as [| n IH]; intros s Hs Hexact; cbn [nth_state];
    [exact Hexact |].
  apply IH; [now apply next_live |].
  apply state_product_exact. now apply next_state_range.
Qed.

(** X10.  For states the recurrence keeps alive (positive, not a multiple
    of 2147483647) and whose product with 16807 is below [2 ^ 53], where
    the source's doubles are exact: two states that lead to the same
    state are equal modulo 2147483647.  Every state within
    1 .. 2147483646 is such a state, so different states there never
    merge.  And from such a seed every state the source goes through
    keeps the product below [2 ^ 53], and the source never returns the
    same value twice in a row. *)
Theorem noise_never_stutters :
  (forall s1 s2 : rng,
      live s1 /\ s1 * 16807 < 2 ^ 53 ->
      live s2 /\ s2 * 16807 < 2 ^ 53 ->
      snd (next s1) = snd (next s2) ->
      s1 mod modulus = s2 mod modulus)
  /\ (forall s1 s2 : rng,
        0 < s1 < modulus -> 0 < s2 < modulus ->
        s1 * 16807 < 2 ^ 53 /\ s2 * 16807 < 2 ^ 53
        /\ (snd (next s1) = snd (next s2) -> s1 = s2))
  /\ (forall (seed : Z) (n : nat),
        live seed /\ seed * 16807 < 2 ^ 53 ->
        nth_state (seededRandom seed) n * 16807 < 2 ^ 53
        /\ ~ (yields seed (S n) == yields seed n)%Q).
Proof.
  assert (Hinj : forall s1 s2 : rng,
             live s1 -> live s2 -> snd (next s1) = snd (next s2) ->
             s1 mod modulus = s2 mod modulus).
  { intros s1 s2 [H1 _] [H2 _] Heq.
    rewrite !next_state_mod in Heq by assumption.
    assert (Hdiv : (modulus | 16807 * (s1 - s2))).
    { apply Z.mod_divide; [unfold modulus; lia |].
      replace (16807 * (s1 - s2)) with (s1 * 16807 - s2 * 16807) by lia.
      rewrite Zminus_mod, Heq, Z.sub_diag. reflexivity. }
    apply Z.gauss in Hdiv; [| exact gcd_modulus_multiplier].
    destruct Hdiv as [k Hk].
    replace s1 with (s2 + k * modulus) by lia.
    apply Z_mod_plus_full. }
  split; [| split].
  - intros s1 s2 [H1 _] [H2 _]. now apply Hinj.
  - intros s1 s2 H1 H2.
    split; [now apply state_product_exact |].
    split; [now apply state_product_exact |].
    intros Heq.
    assert (Hm : s1 mod modulus = s2 mod modulus).
    { apply Hinj; [| | exact Heq]; split; try lia;
        rewrite Z.mod_small; lia. }
    rewrite !Z.mod_small in Hm; lia.
  - intros seed n [Hlive Hexact].
    split; [now apply nth_state_exact |].
    clear Hexact. unfold yields, seededRandom. revert seed Hlive.
    induction n as [| n IH]; intros s Hs.
    + cbn [nth_value]. intros Heq. apply next_value_eq in Heq.
      apply (next_no_fixed_point (snd (next s)));
        [now apply next_state_range | exact Heq].
    + change (nth_value s (S (S n)))
        with (nth_value (snd (next s)) (S n)).
      change (nth_value s (S n)) with (nth_value (snd (next s)) n).
      apply IH. now apply next_live.
Qed.

(** Past the bound the doubles part from the integers: the product of
    536131105103 and 16807 is 1 modulo 2147483647, and the double the
    source computes for it is the multiple of 2147483647 next to it, from
    which the source's state is 0 for ever. *)
Example product_rounds_past_bound :
  2 ^ 53 <= 536131105103 * 16807
  /\ (536131105103 * 16807) mod modulus = 1
  /\ (Js.of_Z 536131105103 * 16807)%float
     = Js.of_Z (4195960 * modulus).
Proof. vm_compute. repeat split. discriminate. Qed.

(** The seed of segment [i] of the tear line (line 318). *)
Definition segmentSeed (i : Z) : Z := i * 137 + 7.

Lemma segmentSeed_chain (prog : Js.number) (i : Z)
    (p q : Geometry.TearPoint) (rest : list Geometry.TearPoint) :
  Geometry.chainSegments prog i (p :: q :: rest)
  = (if i =? 0
     then Geometry.generateJaggedEdge p q (0.012 + prog * 0.008)%float 4
            (segmentSeed i)
     else tl (Geometry.generateJaggedEdge p q (0.012 + prog * 0.008)%float 4
                (segmentSeed i)))
      ++ Geometry.chainSegments prog (i + 1) (q :: rest).
Proof. reflexivity. Qed.

Lemma live_in_range (s : rng) : 0 < s < modulus -> live s.
Proof. intros Hs. split; [lia |]. rewrite Z.mod_small; lia. Qed.

(** X11.  Every seed the component uses is one the recurrence keeps
    alive: the seed [i * 137 + 7] of segment [i] of the tear line, for
    every index below 15675049 (a tear line of more than fifteen million
    raw points would be needed to leave the range), and the constants 42
    (tap), 999 (fibers) and 12345 (paper texture).  Hence every value the
    noise source yields for them is, as an exact ratio, at least 0 and
    below 1. *)
Theorem seeds_in_range :
  (forall i : Z, 0 <= i < 15675049 ->
     0 < segmentSeed i < modulus
     /\ forall n, (0 <= yields (segmentSeed i) n)%Q
                  /\ (yields (segmentSeed i) n < 1)%Q)
  /\ (forall (seed : Z) (n : nat),
        seed = 42 \/ seed = 999 \/ seed = 12345 ->
        (0 <= yields seed n)%Q /\ (yields seed n < 1)%Q).
Proof.
  split.
  - intros i Hi.
    assert (Hr : 0 < segmentSeed i < modulus)
      by (unfold segmentSeed, modulus; lia).
    split; [exact Hr |]. intros n. unfold yields, seededRandom.
    apply nth_value_range. now apply live_in_range.
  - intros seed n Hseed. unfold yields, seededRandom.
    apply nth_value_range. apply live_in_range. unfold modulus.
    destruct Hseed as [-> | [-> | ->]]; lia.
Qed.

End NoiseCycle.

(** ** The two clip paths are of the same kind *)

Module ClipKinds.

Import Js Geometry FloatFinite.
Local Open Scope float_scope.

(** A point whose two percentages are finite numbers, so that [toFixed]
    prints numerals. *)
Definition printable (p : TearPoint) : bool :=
  is_finite (x p * 100) && is_finite (y p * 100).

Lemma toFixed1_finite (v : number) :
  is_finite v = true -> exists n, toFixed1 v = Some n.
Proof.
  rewrite is_finite_spec. unfold toFixed1.
  destruct (Prim2SF v) as [s | s | | s m e]; try discriminate;
    intros _; eexists; reflexivity.
Qed.

Lemma toFixed1_not_finite (v : number) :
  is_finite v = false -> toFixed1 v = None.
Proof.
  rewrite is_finite_spec. unfold toFixed1.
  destruct (Prim2SF v) as [s | s | | s m e]; try discriminate; reflexivity.
Qed.

Lemma printVertex_printable (p : TearPoint) :
  printable p = true -> exists v, printVertex p = Some v.
Proof.
  unfold printable, printVertex, percent. intros H.
  apply andb_prop in H as [Hx Hy].
  destruct (toFixed1_finite _ Hx) as [a ->].
  destruct (toFixed1_finite _ Hy) as [b ->].
  now exists (a, b).
Qed.

Lemma printVertex_not_printable (p : TearPoint) :
  printable p = false -> printVertex p = None.
Proof.
  unfold printable, printVertex, percent. intros H.
  apply andb_false_iff in H as [Hx | Hy].
  - now rewrite (toFixed1_not_finite _ Hx).
  - rewrite (toFixed1_not_finite _ Hy). now destruct (toFixed1 (x p * 100)).
Qed.

Lemma printPath_printable (ps : list TearPoint) :
  forallb printable ps = true ->
  exists vs, printPath ps = Some vs /\ length vs = length ps.
Proof.
  induction ps as [| p ps IH]; cbn [forallb printPath]; intros H.
  - now exists [].
  - apply andb_prop in H as [Hp Hps].
    destruct (printVertex_printable p Hp) as [v ->].
    destruct (IH Hps) as (vs & -> & Hlen).
    exists (v :: vs). cbn [length]. now rewrite Hlen.
Qed.

Lemma printPath_not_printable (ps : list TearPoint) :
  forallb printable ps = false -> printPath ps = None.
Proof.
  induction ps as [| p ps IH]; cbn [forallb printPath]; intros H;
    [discriminate |].
  apply andb_false_iff in H as [Hp | Hps].
  - now rewrite (printVertex_not_printable p Hp).
  - rewrite (IH Hps). now destruct (printVertex p).
Qed.

Lemma forallb_rev {A : Type} (f : A -> bool) (l : list A) :
  forallb f (rev l) = forallb f l.
Proof.
  induction l as [| a l IH]; [reflexivity |].
  cbn [rev forallb]. rewrite forallb_app, IH. cbn [forallb].
  rewrite andb_true_r. apply andb_comm.
Qed.

Lemma nth_printable (ps : list TearPoint) (n : nat) :
  forallb printable ps = true -> (n < length ps)%nat ->
  exists a, percent (y (nth n ps undefinedPoint)) = Some a.
Proof.
  intros Hall Hn. rewrite forallb_forall in Hall.
  specialize (Hall (nth n ps undefinedPoint) (nth_In ps undefinedPoint Hn)).
  unfold printable in Hall. apply andb_prop in Hall as [_ Hy].
  now apply toFixed1_finite.
Qed.

(** X12.  The two clip paths are always of the same kind.  With fewer
    than two jagged points neither piece is clipped.  With two or more,
    if every percentage is a finite number both are polygons, each with
    four vertices more than the jagged line; if some percentage is NaN or
    infinite, neither is a well-formed polygon. *)
Theorem clips_same_kind (jagged : list TearPoint) :
  ((length jagged < 2)%nat ->
   topClip jagged = NoClip /\ bottomClip jagged = NoClip)
  /\ ((2 <= length jagged)%nat -> forallb printable jagged = true ->
      exists top bottom,
        topClip jagged = Polygon top /\ bottomClip jagged = Polygon bottom
        /\ length top = (length jagged + 4)%nat
        /\ length bottom = (length jagged + 4)%nat)
  /\ ((2 <= length jagged)%nat -> forallb printable jagged = false ->
      topClip jagged = BadPolygon /\ bottomClip jagged = BadPolygon).
Proof.
  unfold topClip, bottomClip. split; [| split].
  - intros Hlen. apply Nat.ltb_lt in Hlen. now rewrite Hlen.
  - intros Hlen Hall.
    replace (length jagged <? 2)%nat with false
      by (symmetry; now apply Nat.ltb_ge).
    destruct (nth_printable jagged 0 Hall ltac:(lia)) as [fy ->].
    destruct (nth_printable jagged (length jagged - 1) Hall ltac:(lia))
      as [ly ->].
    destruct (printPath_printable jagged Hall) as (tear & -> & Htear).
    assert (Hrev : forallb printable (rev jagged) = true)
      by (now rewrite forallb_rev).
    destruct (printPath_printable (rev jagged) Hrev) as (rtear & -> & Hrtear).
    rewrite length_rev in Hrtear.
    eexists. eexists. split; [reflexivity |]. split; [reflexivity |].
    cbn [app length]. rewrite !length_app. cbn [length]. lia.
  - intros Hlen Hall.
    replace (length jagged <? 2)%nat with false
      by (symmetry; now apply Nat.ltb_ge).
    rewrite (printPath_not_printable jagged Hall).
    assert (Hrev : forallb printable (rev jagged) = false)
      by (now rewrite forallb_rev).
    rewrite (printPath_not_printable (rev jagged) Hrev).
    split.
    + now destruct (percent (y (nth (length jagged - 1) jagged
                                  undefinedPoint))).
    + now destruct (percent (y (nth 0 jagged undefinedPoint))).
Qed.

(** A NaN among the jagged points spoils both paths. *)
Example clips_with_nan :
  topClip [mkPoint 0 0.5; mkPoint nan 0.5; mkPoint 1 0.5] = BadPolygon
  /\ bottomClip [mkPoint 0 0.5; mkPoint nan 0.5; mkPoint 1 0.5] = BadPolygon.
Proof. split; reflexivity. Qed.

End ClipKinds.

(** ** The page around the letter *)

Module PageFacts.

Import Page.
Local Open Scope N_scope.

Lemma elapsed_app (evs1 evs2 : list Event) :
  elapsed (evs1 ++ evs2) = elapsed evs1 + elapsed evs2.
Proof.
  induction evs1 as [| ev evs1 IH]; [reflexivity |].
  destruct ev; cbn [app elapsed]; rewrite IH; lia.
Qed.

Lemma run_snoc (env : Tear.Env) (evs : list Event) (ev : Event) :
  run env initial (evs ++ [ev]) = step env (run env initial evs) ev.
Proof. unfold run. now rewrite fold_left_app. Qed.

(** The event [e], after the events [before], revealed the letter, and
    [after] followed. *)
Definition revealedBy (env : Tear.Env) (evs before : list Event)
    (e : Tear.Event) (after : list Event) : Prop :=
  evs = before ++ Letter e :: after
  /\ Tear.isRevealed (letter (run env initial before)) = false
  /\ Tear.isRevealed (letter (run env initial (before ++ [Letter e]))) = true.

(** The invariant of the page: the timers that are pending were set at
    the reveal or later, one for each call of [onRevealed] at most. *)
Definition timed (env : Tear.Env) (evs : list Event) (st : State) : Prop :=
  clock st = elapsed evs
  /\ (length (timers st) <= Tear.onRevealedCalls (letter st))%nat
  /\ (forall t, In t (timers st) -> t <= clock st + 5000)
  /\ (Tear.isRevealed (letter st) = false ->
      scrollUnlocked st = false /\ timers st = [])
  /\ (Tear.isRevealed (letter st) = true ->
      exists before e after,
        revealedBy env evs before e after
        /\ (forall t, In t (timers st) -> elapsed before + 5000 <= t)
        /\ (scrollUnlocked st = true -> elapsed before + 5000 <= clock st)
        /\ elapsed before <= clock st
        /\ (scrollUnlocked st = true \/ timers st <> [])).

Lemma revealedBy_snoc (env : Tear.Env) (evs before after : list Event)
    (e : Tear.Event) (ev : Event) :
  revealedBy env evs before e after ->
  revealedBy env (evs ++ [ev]) before e (after ++ [ev]).
Proof.
  intros (-> & Hb & Ha). split; [| now split].
  now rewrite <- app_assoc.
Qed.

(** [n] calls of [handleRevealed] set [n] timers, due 5000 ms from now. *)
Lemma handleRevealed_iter (n : nat) (st : State) :
  Nat.iter n handleRevealed st
  = mkPage (letter st) (scrollUnlocked st) (clock st)
      (timers st ++ repeat (clock st + 5000) n).
Proof.
  induction n as [| n IH].
  - cbn [Nat.iter nat_rect repeat]. rewrite app_nil_r. now destruct st.
  - change (Nat.iter (S n) handleRevealed st)
      with (handleRevealed (Nat.iter n handleRevealed st)).
    rewrite IH. unfold handleRevealed.
    cbn [letter scrollUnlocked clock timers].
    now rewrite <- app_assoc, <- repeat_cons.
Qed.

Lemma step_letter (env : Tear.Env) (st : State) (e : Tear.Event) :
  step env st (Letter e)
  = mkPage (Tear.step env (letter st) e) (scrollUnlocked st) (clock st)
      (timers st
       ++ repeat (clock st + 5000)
            (Tear.onRevealedCalls (Tear.step env (letter st) e)
             - Tear.onRevealedCalls (letter st))).
Proof. unfold step. now rewrite handleRevealed_iter. Qed.

Lemma step_keeps_unlocked (env : Tear.Env) (st : State) (ev : Event) :
  scrollUnlocked st = true -> scrollUnlocked (step env st ev) = true.
Proof.
  intros Hu. destruct ev as [e | ms |].
  - now rewrite step_letter.
  - exact Hu.
  - unfold step. cbn [scrollUnlocked]. now rewrite Hu.
Qed.

Lemma kept_when_none_due (now : N) (ts : list N) :
  existsb (isDue now) ts = false ->
  filter (fun t => negb (isDue now t)) ts = ts.
Proof.
  induction ts as [| t ts IH]; cbn [existsb filter]; [reflexivity |].
  intros H. apply orb_false_elim in H as [Ht Hts].
  rewrite Ht. cbn [negb]. now rewrite IH.
Qed.

Lemma step_timed (env : Tear.Env) (evs : list Event) (ev : Event) :
  timed env evs (run env initial evs) ->
  timed env (evs ++ [ev]) (run env initial (evs ++ [ev])).
Proof.
  intros Hinv.
  pose proof Hinv as (Hclock & Hlen & Hlate & Hcovered & Hrevealed).
  pose proof (run_snoc env evs ev) as Hrun.
  set (st := run env initial evs) in *.
  destruct ev as [e | ms |].
  - (* an event of the letter *)
    pose proof (TearFacts.step_calls env (letter st) e) as Hcalls.
    rewrite Hrun, step_letter. unfold timed.
    cbn [letter scrollUnlocked clock timers].
    rewrite elapsed_app. cbn [elapsed].
    set (letter' := Tear.step env (letter st) e) in *.
    set (calls := (Tear.onRevealedCalls letter'
                   - Tear.onRevealedCalls (letter st))%nat).
    split; [lia |].
    split; [rewrite length_app, repeat_length; unfold calls; lia |].
    split.
    { intros t Ht. apply in_app_or in Ht as [Ht | Ht];
        [now apply Hlate |].
      apply repeat_spec in Ht. lia. }
    destruct (Tear.isRevealed (letter st)) eqn:Hrev.
    + destruct (TearFacts.step_keeps_revealed env (letter st) e Hrev)
        as [Hrev' _].
      fold letter' in Hrev'. rewrite Hrev'.
      split; [discriminate |]. intros _.
      destruct (Hrevealed eq_refl)
        as (before & e0 & after & Hby & Hdue & Hunlocked & Hle & Hset).
      exists before, e0, (after ++ [Letter e]).
      split; [now apply revealedBy_snoc |].
      split; [| split; [exact Hunlocked | split; [exact Hle |]]].
      * intros t Ht. apply in_app_or in Ht as [Ht | Ht];
          [now apply Hdue |].
        apply repeat_spec in Ht. lia.
      * destruct Hset as [Hu | Hts]; [now left | right].
        destruct (timers st); [congruence | discriminate].
    + destruct (Hcovered eq_refl) as [Hlocked Hnone].
      destruct (TearFacts.step_notified env (letter st) e Hrev)
        as [Hrev' Hsame _ | Hrev' Hmore]; fold letter' in Hrev'.
      * assert (Hzero : calls = 0%nat)
          by (unfold calls, letter'; rewrite Hsame; lia).
        rewrite Hrev', Hzero, Hnone. cbn [repeat app].
        split; [now split | discriminate].
      * assert (Hone : calls = 1%nat)
          by (unfold calls, letter'; rewrite Hmore; lia).
        rewrite Hrev', Hone, Hnone. cbn [repeat app].
        split; [discriminate |]. intros _.
        exists evs, e, [].
        split; [| split; [| split; [| split]]].
        -- split; [reflexivity |]. split; [exact Hrev |].
           rewrite Hrun, step_letter. exact Hrev'.
        -- intros t [<- | []]. lia.
        -- congruence.
        -- lia.
        -- right. discriminate.
  - (* time passes *)
    rewrite Hrun. unfold step, timed.
    cbn [letter scrollUnlocked clock timers].
    rewrite elapsed_app. cbn [elapsed].
    split; [lia |]. split; [exact Hlen |].
    split; [intros t Ht; specialize (Hlate t Ht); lia |].
    split; [exact Hcovered |].
    intros Hrev. destruct (Hrevealed Hrev)
      as (before & e0 & after & Hby & Hdue & Hunlocked & Hle & Hset).
    exists before, e0, (after ++ [Elapse ms]).
    split; [now apply revealedBy_snoc |]. split; [exact Hdue |].
    split; [intros Hu; specialize (Hunlocked Hu); lia |].
    split; [lia | exact Hset].
  - (* the timers that are due run *)
    rewrite Hrun. unfold step, timed.
    cbn [letter scrollUnlocked clock timers].
    rewrite elapsed_app. cbn [elapsed].
    split; [lia |].
    split.
    { pose proof (filter_length_le
                    (fun t => negb (isDue (clock st) t)) (timers st)).
      lia. }
    split.
    { intros t Ht. apply filter_In in Ht as [Ht _]. now apply Hlate. }
    split.
    + intros Hrev. destruct (Hcovered Hrev) as [-> ->]. now split.
    + intros Hrev. destruct (Hrevealed Hrev)
        as (before & e0 & after & Hby & Hdue & Hunlocked & Hle & Hset).
      exists before, e0, (after ++ [RunTimers]).
      split; [now apply revealedBy_snoc |].
      split; [| split; [| split]].
      * intros t Ht. apply filter_In in Ht as [Ht _]. now apply Hdue.
      * intros Hu. apply orb_prop in Hu as [Hu | Hu];
          [now apply Hunlocked |].
        apply existsb_exists in Hu as (t & Ht & Hdue').
        specialize (Hdue t Ht). unfold isDue in Hdue'.
        apply N.leb_le in Hdue'. lia.
      * exact Hle.
      * destruct (existsb (isDue (clock st)) (timers st)) eqn:Hsome.
        -- left. apply orb_true_r.
        -- destruct Hset as [-> | Hset]; [now left | right].
           rewrite kept_when_none_due by exact Hsome. exact Hset.
Qed.

Lemma run_timed (env : Tear.Env) (evs : list Event) :
  timed env evs (run env initial evs).
Proof.
  induction evs as [| ev evs IH] using rev_ind.
  - unfold timed. cbn. repeat split; try discriminate; try lia.
  - now apply step_timed.
Qed.

(** X13.  On the page, after any events (of the letter's cover, time
    passing, timers running): while the letter is not revealed the body
    does not scroll, the flower section is not shown and no timer is
    pending; there are never more timers pending than calls of
    [onRevealed], and none is due later than 5000 ms from now; and when
    the flower section is shown, the letter is revealed and at least
    5000 ms have passed since the event that revealed it. *)
Theorem flower_section_after_reveal (env : Tear.Env) (evs : list Event) :
  let st := run env initial evs in
  (Tear.isRevealed (letter st) = false ->
   bodyScrollLocked st = true /\ flowerSectionShown st = false
   /\ timers st = [])
  /\ (length (timers st) <= Tear.onRevealedCalls (letter st))%nat
  /\ (forall t, In t (timers st) -> t <= clock st + 5000)
  /\ (flowerSectionShown st = true ->
      exists before e after,
        evs = before ++ Letter e :: after
        /\ Tear.isRevealed (letter (run env initial before)) = false
        /\ Tear.isRevealed (letter (run env initial (before ++ [Letter e])))
           = true
        /\ 5000 <= elapsed after).
Proof.
  intros st. destruct (run_timed env evs)
    as (Hclock & Hlen & Hlate & Hcovered & Hrevealed).
  fold st in Hclock, Hlen, Hlate, Hcovered, Hrevealed.
  unfold flowerSectionShown, bodyScrollLocked.
  split; [| split; [exact Hlen | split; [exact Hlate |]]].
  - intros Hrev. destruct (Hcovered Hrev) as [-> ->]. now repeat split.
  - intros Hu.
    destruct (Tear.isRevealed (letter st)) eqn:Hrev.
    2:{ destruct (Hcovered eq_refl) as [Hl _]. congruence. }
    destruct (Hrevealed eq_refl)
      as (before & e & after & (Hevs & Hb & Ha) & _ & Hunlocked & _).
    exists before, e, after.
    split; [exact Hevs |]. split; [exact Hb |]. split; [exact Ha |].
    specialize (Hunlocked Hu). rewrite Hclock, Hevs, elapsed_app in Hunlocked.
    cbn [elapsed] in Hunlocked. lia.
Qed.

(** Two timers can be pending: the cover that fades out after a reveal
    with no completed tear takes a second press and release, which calls
    [onRevealed] again. *)
Example two_timers_pending :
  let st := run TearFacts.cover300x400 initial
              [Letter (Tear.PointerDown 3 200)%float;
               Letter (Tear.PointerMove (-280) 200)%float;
               Letter Tear.PointerUp; Elapse 100;
               Letter (Tear.PointerDown 3 200)%float;
               Letter Tear.PointerUp] in
  Tear.onRevealedCalls (letter st) = 2%nat
  /\ timers st = [5000; 5100]
  /\ flowerSectionShown
       (run TearFacts.cover300x400 st [Elapse 4900; RunTimers]) = true.
Proof. vm_compute. repeat split. Qed.

(** X14.  The other direction: once the letter is revealed, as soon as
    5000 ms more have passed and the timers run, the flower section is
    shown and the body scrolls again, whatever happened in between; and
    once shown it stays shown. *)
Theorem flower_section_unlocks
    (env : Tear.Env) (evs later : list Event) (ms : N) :
  Tear.isRevealed (letter (run env initial evs)) = true ->
  5000 <= ms ->
  let st := run env initial (evs ++ [Elapse ms; RunTimers]) in
  flowerSectionShown st = true /\ bodyScrollLocked st = false
  /\ flowerSectionShown (run env st later) = true.
Proof.
  intros Hrev Hms st.
  assert (Hshown : flowerSectionShown st = true).
  { unfold st, run. rewrite fold_left_app. fold (run env initial evs).
    destruct (run_timed env evs) as (Hclock & _ & Hlate & _ & Hrevealed).
    destruct (Hrevealed Hrev)
      as (before & e & after & _ & _ & _ & _ & Hset).
    cbn [fold_left step]. unfold flowerSectionShown.
    cbn [scrollUnlocked clock timers letter].
    destruct Hset as [-> | Hset]; [reflexivity |].
    apply orb_true_iff. right.
    destruct (timers (run env initial evs)) as [| t ts] eqn:Hts;
      [congruence |].
    cbn [existsb]. apply orb_true_iff. left.
    unfold isDue. apply N.leb_le.
    assert (Ht : t <= clock (run env initial evs) + 5000)
      by (apply Hlate; now left).
    lia. }
  split; [exact Hshown |].
  split; [unfold bodyScrollLocked; unfold flowerSectionShown in Hshown;
          now rewrite Hshown |].
  clearbody st. clear Hrev Hms. revert st Hshown.
  unfold run, flowerSectionShown.
  induction later as [| ev later IH]; intros st Hshown; [exact Hshown |].
  cbn [fold_left]. apply IH. now apply step_keeps_unlocked.
Qed.

Lemma flower_section_unlocks_witness :
  let evs := [Letter (Tear.PointerDown 150%float 200%float); Letter Tear.PointerUp;
              Letter Tear.Click; Elapse 1200; RunTimers] in
  let st := run TearFacts.touchCover initial
              (evs ++ [Elapse 5000; RunTimers]) in
  flowerSectionShown st = true /\ bodyScrollLocked st = false
  /\ flowerSectionShown
       (run TearFacts.touchCover st [Letter Tear.Click; Elapse 10; RunTimers])
     = true.
Proof.
  intros evs.
  apply (flower_section_unlocks TearFacts.touchCover evs
           [Letter Tear.Click; Elapse 10; RunTimers] 5000).
  - vm_compute. reflexivity.
  - vm_compute. discriminate.
Defined.

(** A tap on a touch device, five seconds, the timer: the flower section
    is shown.  Half a second short, it is not. *)
Example flower_after_five_seconds :
  flowerSectionShown
    (run TearFacts.touchCover initial
       [Letter Tear.Click; Elapse 3000; RunTimers; Elapse 2000; RunTimers])
  = true
  /\ flowerSectionShown
       (run TearFacts.touchCover initial
          [Letter Tear.Click; Elapse 3000; RunTimers; Elapse 1500;
           RunTimers])
     = false.
Proof. vm_compute. split; reflexivity. Qed.

End PageFacts.
